(** * gdls: path resolution, recursive folder sizes and the cache layer

    A shallow embedding of the core of [gdls] (src/gdls/core.py, cache.py,
    paths.py, explorer.py) and the properties stated about it.

    Conventions of the embedding.
    - Python exceptions are values of [exn]; a call that can raise returns a
      [result].  Stateful code is written in state-passing style over the
      record [world] (the cache object, its backing file, the clock and the
      log of requests sent to the remote service).
    - Time stamps ([datetime.now().timestamp()]) are whole seconds in [Z].
    - The remote service is read-only data: what it answers to each query.
      Every [execute()] of the source appends one [request] to the log.
    - Dictionaries are [gmap]s, Python sets are [gset]s. *)

From Stdlib Require Import ZArith String Ascii List Permutation Sorted Lia.
From stdpp Require Import base option gmap strings list fin_maps relations.

Local Open Scope Z_scope.
Local Open Scope string_scope.
Local Open Scope list_scope.

(** ** core.py *)

Definition CACHE_TTL_SECONDS : Z := 60 * 60.

Definition FOLDER_MIME : string := "application/vnd.google-apps.folder".

Inductive exn : Type :=
| ValueError (msg : string)
| TypeError
| UnicodeDecodeError
| DriveError (msg : string)
| DrivePathNotFoundError (msg : string)
| DriveCacheError (msg : string).

Inductive result (A : Type) : Type :=
| Return (a : A)
| Raise (e : exn).
Arguments Return {A} a.
Arguments Raise {A} e.

Record PathInfo : Type := mkPathInfo {
  pi_id : string;
  pi_name : string;
  pi_path : string
}.

(** [PathInfo.__post_init__]: the identifier and the name must be non-empty. *)
Definition PathInfo_new (id name path : string) : result PathInfo :=
  if decide (id = "") then Raise (ValueError "PathInfo id must be a non-empty string")
  else if decide (name = "") then Raise (ValueError "PathInfo name must be a non-empty string")
  else Return (mkPathInfo id name path).

Record ListOptions : Type := mkListOptions {
  show_hidden : bool;
  sort_by : string;
  reverse_sort : bool;
  show_size : bool;
  owned_only : bool
}.

(** [DriveItem]; the fields that the modelled operations never read
    (creation and modification time, owners, link) are left out. *)
Record DriveItem : Type := mkDriveItem {
  di_id : string;
  di_name : string;
  di_mime_type : string;
  di_size : option Z;
  di_owned_by_me : bool;
  di_shared : bool;
  di_calculated_size : option Z
}.

Definition DriveItem_new (id name mime : string) (sz : option Z)
    (owned shared : bool) : result DriveItem :=
  if decide (id = "") then Raise (ValueError "DriveItem id must be a non-empty string")
  else if decide (name = "") then Raise (ValueError "DriveItem name must be a non-empty string")
  else Return (mkDriveItem id name mime sz owned shared None).

Definition is_folder (item : DriveItem) : bool :=
  bool_decide (di_mime_type item = FOLDER_MIME).

Definition set_calculated_size (item : DriveItem) (n : Z) : DriveItem :=
  mkDriveItem (di_id item) (di_name item) (di_mime_type item) (di_size item)
    (di_owned_by_me item) (di_shared item) (Some n).

(** ** cache.py *)

(** One entry of the [paths] namespace, as [set_path] writes it. *)
Record path_entry : Type := mkPathEntry {
  pe_id : string;
  pe_name : string;
  pe_timestamp : Z
}.

(** One entry of the [folder_sizes] namespace.  [get_folder_size] reads both
    keys with [dict.get], so either may be missing. *)
Record size_entry : Type := mkSizeEntry {
  se_size : option Z;
  se_timestamp : option Z
}.

(** The dictionary [_cache_data].  The source tests ['paths' in ...] and
    ['folder_sizes' in ...] before every access, so a namespace may be
    missing. *)
Record cache_data : Type := mkCacheData {
  paths : option (gmap string path_entry);
  folder_sizes : option (gmap string size_entry)
}.

Definition empty_cache_data : cache_data := mkCacheData (Some ∅) (Some ∅).

(** What [json.load] finds in the cache file: an object (with the namespaces
    it has), or a JSON value that is not an object.  Strings and non-empty
    arrays are not modelled. *)
Inductive document : Type :=
| JObject (d : cache_data)
| JEmptyArray
| JNull
| JBool (b : bool)
| JNumber (n : Z).

(** The backing file as [_load_cache] meets it. *)
Inductive file_content : Type :=
| Missing                 (* os.path.exists is False *)
| Unreadable              (* open or read raises IOError *)
| Undecodable             (* the bytes are not text: UnicodeDecodeError *)
| Garbled                 (* text that is not JSON: JSONDecodeError *)
| Document (j : document).

(** Where a write that fails does so.  Both are inside the [try] of
    [_save_cache]: [open(cache_file, 'w')] raises and the file is as it
    was, or the file has been opened, and so emptied, and [json.dump] or
    the closing of the file raises. *)
Inductive write_failure : Type :=
| OpenFails
| DumpFails.

Record store : Type := mkStore {
  content : file_content;
  writable : bool;          (* does the write of [_save_cache] succeed *)
  failure : write_failure   (* if it does not, where it fails *)
}.

Record DriveCache : Type := mkDriveCache {
  _cache_data : cache_data;
  cache_file : store
}.

(** [key not in data] followed by [data[key] = {}], on a loaded document. *)
Definition ensure_paths (j : document) : result document :=
  match j with
  | JObject d =>
      Return (JObject (mkCacheData (Some (default ∅ (paths d))) (folder_sizes d)))
  | JEmptyArray => Raise TypeError      (* list indices must be integers *)
  | JNull | JBool _ | JNumber _ => Raise TypeError   (* not iterable *)
  end.

Definition ensure_folder_sizes (j : document) : result document :=
  match j with
  | JObject d =>
      Return (JObject (mkCacheData (paths d) (Some (default ∅ (folder_sizes d)))))
  | JEmptyArray => Raise TypeError
  | JNull | JBool _ | JNumber _ => Raise TypeError
  end.

Definition _load_cache (f : store) : result cache_data :=
  match content f with
  | Missing => Return empty_cache_data
  | Unreadable => Return empty_cache_data
  | Garbled => Return empty_cache_data
  | Undecodable => Raise UnicodeDecodeError
  | Document j =>
      match ensure_paths j with
      | Raise e => Raise e
      | Return j1 =>
          match ensure_folder_sizes j1 with
          | Raise e => Raise e
          | Return (JObject d) => Return d
          | Return _ => Raise TypeError
          end
      end
  end.

(** [DriveCache.__init__]. *)
Definition DriveCache_new (f : store) : result DriveCache :=
  match _load_cache f with
  | Return d => Return (mkDriveCache d f)
  | Raise e => Raise e
  end.

(** What a write that fails leaves in the file: after a failing [open]
    what was there; after a failure behind the [open] an empty or
    incomplete text, which is not JSON. *)
Definition after_failed_write (f : store) : store :=
  match failure f with
  | OpenFails => f
  | DumpFails => mkStore Garbled (writable f) (failure f)
  end.

(** [_save_cache]: the whole dictionary is written; an [IOError] of [open],
    [json.dump] or the closing of the file is re-raised as
    [DriveCacheError] (the text of the [IOError], which the source appends
    to the message, is left out). *)
Definition _save_cache (c : DriveCache) : result unit * DriveCache :=
  if writable (cache_file c)
  then (Return tt,
        mkDriveCache (_cache_data c)
          (mkStore (Document (JObject (_cache_data c))) true
             (failure (cache_file c))))
  else (Raise (DriveCacheError "Failed to save cache"),
        mkDriveCache (_cache_data c) (after_failed_write (cache_file c))).

Definition get_path (path : string) (c : DriveCache) : result (option PathInfo) :=
  match paths (_cache_data c) with
  | None => Return None
  | Some ps =>
      match ps !! path with
      | None => Return None
      | Some cached =>
          match PathInfo_new (pe_id cached) (pe_name cached) path with
          | Return path_info => Return (Some path_info)
          | Raise e => Raise e
          end
      end
  end.

Definition set_path (now : Z) (path : string) (path_info : PathInfo)
    (c : DriveCache) : result unit * DriveCache :=
  let ps := default ∅ (paths (_cache_data c)) in
  let ps := <[path := mkPathEntry (pi_id path_info) (pi_name path_info) now]> ps in
  _save_cache
    (mkDriveCache (mkCacheData (Some ps) (folder_sizes (_cache_data c)))
       (cache_file c)).

Definition size_key (folder_id : string) : string := "size_" +:+ folder_id.

Definition get_folder_size (now : Z) (folder_id : string) (c : DriveCache)
    : option Z :=
  match folder_sizes (_cache_data c) with
  | None => None
  | Some fs =>
      let cache_key := size_key folder_id in
      match fs !! cache_key with
      | None => None
      | Some cached =>
          match se_size cached, se_timestamp cached with
          | None, None => None            (* an empty dict is falsy *)
          | _, _ =>
              let age := now - default 0 (se_timestamp cached) in
              if age >? CACHE_TTL_SECONDS then None else se_size cached
          end
      end
  end.

Definition set_folder_size (now : Z) (folder_id : string) (size : Z)
    (c : DriveCache) : result unit * DriveCache :=
  let fs := default ∅ (folder_sizes (_cache_data c)) in
  let cache_key := size_key folder_id in
  let fs := <[cache_key := mkSizeEntry (Some size) (Some now)]> fs in
  _save_cache
    (mkDriveCache (mkCacheData (paths (_cache_data c)) (Some fs))
       (cache_file c)).

Definition clear (c : DriveCache) : result unit * DriveCache :=
  _save_cache (mkDriveCache empty_cache_data (cache_file c)).

(** ** The remote service *)

(** One element of [files] in a reply.  [id] and [name] are always sent;
    the other keys may be missing.  [size] is sent as a decimal string and
    is kept here as the integer [int(item['size'])] reads from it. *)
Record api_item : Type := mkApiItem {
  item_id : string;
  item_name : string;
  item_mimeType : option string;
  item_size : option Z;
  item_ownedByMe : option bool;
  item_shared : option bool
}.

#[global] Instance api_item_eq_dec : EqDecision api_item.
Proof. solve_decision. Defined.

(** What the service answers to one query, page after page: a page either
    fails ([HttpError]), or carries files and no [nextPageToken], or carries
    files and a token that leads to the rest.  The token itself is opaque to
    the source, which only tests whether there is one. *)
Inductive listing : Type :=
| HttpError (e : string)
| LastPage (files : list api_item)
| Page (files : list api_item) (rest : listing).

Inductive query : Type :=
| QChildren (parent : string)            (* 'p' in parents and trashed=false *)
| QAll (parent : string)                 (* 'p' in parents *)
| QFolderNamed (parent name : string).   (* ... and name='n' and mimeType=folder and trashed=false *)

Record request : Type := mkRequest {
  rq_query : query;
  rq_page : nat
}.

(** The folder graph is the finite map [children]: it gives, for a folder
    identifier, the pages of its non-trashed children.  An identifier that
    is not in the map has no children. *)
Record service : Type := mkService {
  children : gmap string listing;
  everything : string → listing;
  folder_named : string → string → listing
}.

Definition children_of (svc : service) (folder_id : string) : listing :=
  default (LastPage []) (children svc !! folder_id).

Record world : Type := mkWorld {
  cache : DriveCache;
  clock : Z;
  log : list request
}.

(** ** paths.py *)

Definition is_slash (c : ascii) : bool := Ascii.eqb c "/".

Fixpoint lstrip (s : string) : string :=
  match s with
  | String c s' => if is_slash c then lstrip s' else s
  | EmptyString => EmptyString
  end.

Fixpoint rstrip (s : string) : string :=
  match s with
  | EmptyString => EmptyString
  | String c s' =>
      match rstrip s' with
      | EmptyString => if is_slash c then EmptyString else String c EmptyString
      | r => String c r
      end
  end.

(** [s.strip('/')] *)
Definition strip (s : string) : string := rstrip (lstrip s).

(** [s.split('/')] *)
Fixpoint split (s : string) : list string :=
  match s with
  | EmptyString => [EmptyString]
  | String c s' =>
      if is_slash c then EmptyString :: split s'
      else match split s' with
           | h :: t => String c h :: t
           | [] => [String c EmptyString]
           end
  end.

(** [[p for p in path.strip('/').split('/') if p]] *)
Definition path_parts (path : string) : list string :=
  filter (λ p, p ≠ "") (split (strip path)).

Definition first_page (l : listing) : option (list api_item) :=
  match l with
  | HttpError _ => None
  | LastPage files => Some files
  | Page files _ => Some files
  end.

Definition not_found_in_parent (folder_name : string) : string :=
  "Folder '" +:+ folder_name +:+ "' not found".

Definition not_found_in_path (part path : string) : string :=
  "Folder '" +:+ part +:+ "' not found in path '" +:+ path +:+ "'".

Definition _find_folder_in_parent (svc : service) (parent_id folder_name : string)
    : result (string * string) * list request :=
  let rq := mkRequest (QFolderNamed parent_id folder_name) 0 in
  match folder_named svc parent_id folder_name with
  | HttpError e =>
      (Raise (DrivePathNotFoundError
                ("Error accessing folder '" +:+ folder_name +:+ "': " +:+ e)), [rq])
  | LastPage items | Page items _ =>
      match items with
      | [] => (Raise (DrivePathNotFoundError (not_found_in_parent folder_name)), [rq])
      | it :: _ => (Return (item_id it, item_name it), [rq])
      end
  end.

(** The [for part in parts] loop of [_resolve_path_components]. *)
Fixpoint walk_parts (svc : service) (path : string) (parts : list string)
    (current_id current_name : string)
    : result (string * string) * list request :=
  match parts with
  | [] => (Return (current_id, current_name), [])
  | part :: rest =>
      match _find_folder_in_parent svc current_id part with
      | (Return (next_id, next_name), rqs) =>
          let '(r, rqs') := walk_parts svc path rest next_id next_name in
          (r, rqs ++ rqs')
      | (Raise (DrivePathNotFoundError _), rqs) =>
          (Raise (DrivePathNotFoundError (not_found_in_path part path)), rqs)
      | (Raise e, rqs) => (Raise e, rqs)
      end
  end.

Definition _resolve_path_components (svc : service) (path : string)
    : result PathInfo * list request :=
  let parts := path_parts path in
  match walk_parts svc path parts "root" "My Drive" with
  | (Return (current_id, current_name), rqs) =>
      (PathInfo_new current_id current_name path, rqs)
  | (Raise e, rqs) => (Raise e, rqs)
  end.

Definition with_cache (w : world) (c : DriveCache) : world :=
  mkWorld c (clock w) (log w).

Definition with_requests (w : world) (rqs : list request) : world :=
  mkWorld (cache w) (clock w) (log w ++ rqs).

Definition resolve (svc : service) (path : string) (w : world)
    : result PathInfo * world :=
  let path := if decide (path = "") then "/" else path in
  if decide (path = "/") then (PathInfo_new "root" "My Drive" "/", w)
  else
    match get_path path (cache w) with
    | Raise e => (Raise e, w)
    | Return (Some cached) => (Return cached, w)
    | Return None =>
        let '(r, rqs) := _resolve_path_components svc path in
        let w := with_requests w rqs in
        match r with
        | Raise e => (Raise e, w)
        | Return path_info =>
            let '(saved, c) := set_path (clock w) path path_info (cache w) in
            match saved with
            | Raise e => (Raise e, with_cache w c)
            | Return _ => (Return path_info, with_cache w c)
            end
        end
    end.

(** ** explorer.py *)

Definition files_list (svc : service) (q : query) : listing :=
  match q with
  | QChildren parent => children_of svc parent
  | QAll parent => everything svc parent
  | QFolderNamed parent name => folder_named svc parent name
  end.

Definition _convert_to_drive_item (item : api_item) : result DriveItem :=
  DriveItem_new (item_id item) (item_name item)
    (default "" (item_mimeType item)) (item_size item)
    (default true (item_ownedByMe item)) (default false (item_shared item)).

Fixpoint _convert_to_drive_items (api_items : list api_item)
    : result (list DriveItem) :=
  match api_items with
  | [] => Return []
  | item :: rest =>
      match _convert_to_drive_item item with
      | Raise e => Raise e
      | Return drive_item =>
          match _convert_to_drive_items rest with
          | Raise e => Raise e
          | Return drive_items => Return (drive_item :: drive_items)
          end
      end
  end.

(** The [while True] loop of [_fetch_items]: one request per page, a failed
    page aborts the listing with [DriveError]. *)
Fixpoint fetch_pages (q : query) (l : listing) (page : nat)
    (all_items : list DriveItem) : result (list DriveItem) * list request :=
  let rq := mkRequest q page in
  match l with
  | HttpError e => (Raise (DriveError ("Failed to list files: " +:+ e)), [rq])
  | LastPage items =>
      match _convert_to_drive_items items with
      | Raise e => (Raise e, [rq])
      | Return converted => (Return (all_items ++ converted), [rq])
      end
  | Page items rest =>
      match _convert_to_drive_items items with
      | Raise e => (Raise e, [rq])
      | Return converted =>
          let '(r, rqs) := fetch_pages q rest (S page) (all_items ++ converted) in
          (r, rq :: rqs)
      end
  end.

Definition _fetch_items (svc : service) (folder_id : string)
    (options : ListOptions) : result (list DriveItem) * list request :=
  let q := if show_hidden options then QAll folder_id else QChildren folder_id in
  fetch_pages q (files_list svc q) 0 [].

Section size_loops.
(** The recursive call on a child folder; [None] when it does not return. *)
Variable descend : string → option (Z * list request).

(** The body of [for item in items], on the running total and the
    requests sent so far. *)
Definition add_item (item : api_item) (acc : Z * list request)
    : option (Z * list request) :=
  match item_size item with
  | Some sz => Some (acc.1 + sz, acc.2)
  | None =>
      if decide (item_mimeType item = Some FOLDER_MIME)
      then match descend (item_id item) with
           | Some (n, rqs) => Some (acc.1 + n, acc.2 ++ rqs)
           | None => None
           end
      else Some acc
  end.

Fixpoint add_items (items : list api_item) (acc : Z * list request)
    : option (Z * list request) :=
  match items with
  | [] => Some acc
  | item :: rest =>
      match add_item item acc with
      | Some acc' => add_items rest acc'
      | None => None
      end
  end.

(** The [while True] loop over the pages: a failed page ends the loop and
    keeps the total reached so far. *)
Fixpoint add_pages (folder_id : string) (l : listing) (page : nat)
    (acc : Z * list request) : option (Z * list request) :=
  let acc := (acc.1, acc.2 ++ [mkRequest (QChildren folder_id) page]) in
  match l with
  | HttpError _ => Some acc
  | LastPage items => add_items items acc
  | Page items rest =>
      match add_items items acc with
      | Some acc' => add_pages folder_id rest (S page) acc'
      | None => None
      end
  end.
End size_loops.

(** [_recursive_folder_size].  The recursion of the source is not structural,
    so the embedding counts nested calls down from [fuel]; [None] stands for
    a computation that has not returned within [fuel] nested calls. *)
Fixpoint _recursive_folder_size (fuel : nat) (svc : service)
    (folder_id : string) (visited : gset string) : option (Z * list request) :=
  match fuel with
  | O => None
  | S fuel' =>
      if decide (folder_id ∈ visited) then Some (0, [])
      else
        let visited := {[folder_id]} ∪ visited in
        add_pages (λ child, _recursive_folder_size fuel' svc child visited)
          folder_id (children_of svc folder_id) 0%nat (0, [])
  end.

(** Nesting depth that a traversal of [svc] never exceeds
    (see [recursive_folder_size_terminates]). *)
Definition traversal_fuel (svc : service) : nat := S (size (children svc)).

Definition calculate_folder_size (svc : service) (folder_id : string)
    (w : world) : option (result Z * world) :=
  if decide (folder_id = "")
  then Some (Raise (ValueError "folder_id must be a non-empty string"), w)
  else
    match get_folder_size (clock w) folder_id (cache w) with
    | Some cached_size => Some (Return cached_size, w)
    | None =>
        match _recursive_folder_size (traversal_fuel svc) svc folder_id ∅ with
        | None => None
        | Some (total_size, rqs) =>
            let w := with_requests w rqs in
            let '(saved, c) :=
              set_folder_size (clock w) folder_id total_size (cache w) in
            match saved with
            | Raise e => Some (Raise e, with_cache w c)
            | Return _ => Some (Return total_size, with_cache w c)
            end
        end
    end.

Fixpoint _calculate_folder_sizes (svc : service) (items : list DriveItem)
    (w : world) : option (result (list DriveItem) * world) :=
  match items with
  | [] => Some (Return [], w)
  | item :: rest =>
      let continue (item' : DriveItem) (w' : world) :=
        match _calculate_folder_sizes svc rest w' with
        | Some (Return rest', w'') => Some (Return (item' :: rest'), w'')
        | other => other
        end in
      if is_folder item then
        if di_owned_by_me item then
          match calculate_folder_size svc (di_id item) w with
          | None => None
          | Some (Raise e, w') => Some (Raise e, w')
          | Some (Return n, w') => continue (set_calculated_size item n) w'
          end
        else continue (set_calculated_size item 0) w
      else continue item w
  end.

Section listing.
(** [_sort_items] only reorders the list for display; it is a parameter. *)
Variable _sort_items : list DriveItem → ListOptions → list DriveItem.

Definition list_files (svc : service) (folder_id : string)
    (options : ListOptions) (w : world)
    : option (result (list DriveItem) * world) :=
  if decide (folder_id = "")
  then Some (Raise (ValueError "folder_id must be a non-empty string"), w)
  else
    let '(r, rqs) := _fetch_items svc folder_id options in
    let w := with_requests w rqs in
    match r with
    | Raise e => Some (Raise e, w)
    | Return items =>
        let items :=
          if owned_only options
          then filter (λ item, di_owned_by_me item = true) items
          else items in
        if show_size options then
          match _calculate_folder_sizes svc items w with
          | None => None
          | Some (Raise e, w') => Some (Raise e, w')
          | Some (Return items', w') =>
              Some (Return (_sort_items items' options), w')
          end
        else Some (Return (_sort_items items options), w)
    end.
End listing.

(** ** The folder graph, as the specification speaks of it *)

(** Every file that the service sends for a listing, all pages together. *)
Fixpoint all_items (l : listing) : list api_item :=
  match l with
  | HttpError _ => []
  | LastPage files => files
  | Page files rest => files ++ all_items rest
  end.

Fixpoint no_failure (l : listing) : bool :=
  match l with
  | HttpError _ => false
  | LastPage _ => true
  | Page _ rest => no_failure rest
  end.

(** No page fetch fails: the pages received are all the pages. *)
Definition no_failures (svc : service) : Prop :=
  map_Forall (λ _ l, no_failure l = true) (children svc).

(** [item] is an entry that the traversal descends into. *)
Definition is_subfolder (item : api_item) : Prop :=
  item_size item = None ∧ item_mimeType item = Some FOLDER_MIME.

#[global] Instance is_subfolder_dec item : Decision (is_subfolder item).
Proof. unfold is_subfolder. apply _. Defined.

(** [c] is a child folder of [p]. *)
Definition child (svc : service) (p c : string) : Prop :=
  ∃ item, item ∈ all_items (children_of svc p) ∧ is_subfolder item ∧ item_id item = c.

(** No folder is its own descendant. *)
Definition acyclic (svc : service) : Prop :=
  ∀ id, ¬ tc (child svc) id id.

(** A decidable certificate of acyclicity: every child folder has a smaller
    rank than its parent (see [well_ranked_acyclic]). *)
Definition well_ranked (rank : string → nat) (svc : service) : Prop :=
  map_Forall
    (λ p l, Forall (λ item, is_subfolder item → (rank (item_id item) < rank p)%nat)
                   (all_items l))
    (children svc).

#[global] Instance well_ranked_dec rank svc : Decision (well_ranked rank svc).
Proof. unfold well_ranked. apply _. Defined.

#[global] Instance no_failures_dec svc : Decision (no_failures svc).
Proof. unfold no_failures. apply _. Defined.

(** What one entry adds to the size of its parent, given the size of every
    child folder. *)
Definition contribution (below : string → Z) (item : api_item) : Z :=
  match item_size item with
  | Some sz => sz
  | None =>
      if decide (item_mimeType item = Some FOLDER_MIME)
      then below (item_id item) else 0
  end.

Definition sum_list (l : list Z) : Z := foldr Z.add 0 l.

(** The sizes of the files found at most [depth] levels below [id], added
    up along every descent: a file that can be reached along several
    descents is counted once for each of them. *)
Fixpoint subtree_size (depth : nat) (svc : service) (id : string) : Z :=
  match depth with
  | O => 0
  | S depth' =>
      sum_list (contribution (subtree_size depth' svc)
                  <$> all_items (children_of svc id))
  end.






(** [item] is an edge into one of the folders of [V]. *)
Definition points_into (V : gset string) (item : api_item) : Prop :=
  is_subfolder item ∧ item_id item ∈ V.

#[global] Instance points_into_dec V item : Decision (points_into V item).
Proof. unfold points_into. apply _. Defined.

Fixpoint drop_edges (V : gset string) (l : listing) : listing :=
  match l with
  | HttpError e => HttpError e
  | LastPage files => LastPage (filter (λ item, ¬ points_into V item) files)
  | Page files rest =>
      Page (filter (λ item, ¬ points_into V item) files) (drop_edges V rest)
  end.

(** The graph of [svc] without the edges that lead into [V]. *)
Definition cut_edges (V : gset string) (svc : service) : service :=
  mkService (drop_edges V <$> children svc) (everything svc) (folder_named svc).

(** ** Example data *)

Definition file_item (id : string) (sz : Z) : api_item :=
  mkApiItem id id (Some "text/plain") (Some sz) None None.

Definition folder_item (id : string) : api_item :=
  mkApiItem id id (Some FOLDER_MIME) None None None.

(** A service that knows nothing but the folder graph [g]. *)
Definition graph_service (g : gmap string listing) : service :=
  mkService g (λ _, LastPage []) (λ _ _, LastPage []).

Definition fresh_store : store := mkStore Missing true OpenFails.

Definition fresh_cache : DriveCache := mkDriveCache empty_cache_data fresh_store.

Definition fresh_world (now : Z) : world := mkWorld fresh_cache now [].

(** A cycle: A holds a file and D, D holds a file and A. *)
Definition cyclic_drive : service :=
  graph_service
    (<["A" := LastPage [file_item "f1" 5; folder_item "D"]]>
       (<["D" := LastPage [file_item "f2" 7; folder_item "A"]]> ∅)).

(** A tree in two pages: A holds a file and B, B holds a file. *)
Definition tree_drive : service :=
  graph_service
    (<["A" := Page [file_item "f1" 5] (LastPage [folder_item "B"])]>
       (<["B" := LastPage [file_item "f2" 7]]> ∅)).




(** Ranks for [cyclic_drive] without the edge from D back into A. *)
Definition cyclic_rank (id : string) : nat :=
  if decide (id = "A") then 2%nat else if decide (id = "D") then 1%nat else 0%nat.


(** A Drive where the root holds the folder A (identifier a1) and A holds
    the folder B (identifier b1); no other folder has a name. *)
Definition ab_service : service :=
  mkService ∅ (λ _, LastPage [])
    (λ parent name,
       if decide (parent = "root" ∧ name = "A") then LastPage [folder_item "a1"]
       else if decide (parent = "a1" ∧ name = "B") then LastPage [folder_item "b1"]
       else LastPage []).

(** A folder [top] with a folder of the caller (m, 5 bytes inside), a folder
    shared by someone else (s, 1000 bytes inside) and a file. *)
Definition shared_drive : service :=
  graph_service
    (<["top" := LastPage
         [mkApiItem "m" "mine" (Some FOLDER_MIME) None (Some true) (Some false);
          mkApiItem "s" "theirs" (Some FOLDER_MIME) None (Some false) (Some true);
          mkApiItem "f" "notes.txt" (Some "text/plain") (Some 3) None None]]>
       (<["m" := LastPage [file_item "f1" 5]]>
          (<["s" := LastPage [file_item "f2" 1000]]> ∅))).

Definition size_options : ListOptions := mkListOptions false "name" false true false.

Definition keep_order (items : list DriveItem) (options : ListOptions)
    : list DriveItem := items.

(** What [list_files] returns for [top] with [size_options], and the world
    it leaves. *)
Definition shared_listing : list DriveItem :=
  [mkDriveItem "m" "mine" FOLDER_MIME None true false (Some 5);
   mkDriveItem "s" "theirs" FOLDER_MIME None false true (Some 0);
   mkDriveItem "f" "notes.txt" "text/plain" (Some 3) true false None].

Definition shared_world : world :=
  mkWorld (set_folder_size 0 "m" 5 fresh_cache).2 0
    [mkRequest (QChildren "top") 0; mkRequest (QChildren "m") 0].

(** The path made of [n] slashes. *)
Fixpoint slashes (n : nat) : string :=
  match n with
  | O => EmptyString
  | S n' => String "/" (slashes n')
  end.

Definition root_info : PathInfo := mkPathInfo "root" "My Drive" "/".

(** ** Further parts of the program *)

(** [DriveItem.display_size], [calculated_size or size or 0]: [a or b] is
    [b] when [a] is [None] or 0. *)
Definition py_or (a : option Z) (b : Z) : Z :=
  match a with
  | Some n => if decide (n = 0) then b else n
  | None => b
  end.

Definition display_size (item : DriveItem) : Z :=
  py_or (di_calculated_size item) (py_or (di_size item) 0).

Section stable_sort.
Context {A : Type} (before : A → A → bool).

(** [list.sort] is stable: the result is the one ordered list in which
    entries that compare equal keep their order.  It is computed here by
    insertion; [before x y] says that [x] may stand in front of [y]. *)
Fixpoint insert_sorted (x : A) (l : list A) : list A :=
  match l with
  | [] => [x]
  | y :: l' => if before x y then x :: y :: l' else y :: insert_sorted x l'
  end.

Definition stable_sort (l : list A) : list A := foldr insert_sorted [] l.
End stable_sort.

(** [key=lambda x: x.display_size, reverse=True] *)
Definition size_before (x y : DriveItem) : bool :=
  (display_size y <=? display_size x)%Z.

Section sorting.
(** [str.lower], and the ['date'] branch of [_sort_items], which reads a
    field that [DriveItem] leaves out here. *)
Variable lower : string → string.
Variable by_date : list DriveItem → list DriveItem.

(** [key=lambda x: x.name.lower()] *)
Definition name_before (x y : DriveItem) : bool :=
  String.leb (lower (di_name x)) (lower (di_name y)).

(** [key=lambda x: (x.mime_type, x.name.lower())]: tuples are compared
    component by component. *)
Definition type_before (x y : DriveItem) : bool :=
  if String.eqb (di_mime_type x) (di_mime_type y)
  then String.leb (lower (di_name x)) (lower (di_name y))
  else String.leb (di_mime_type x) (di_mime_type y).

Definition _sort_items (items : list DriveItem) (options : ListOptions)
    : list DriveItem :=
  let items :=
    if decide (sort_by options = "size") then stable_sort size_before items
    else if decide (sort_by options = "date") then by_date items
    else if decide (sort_by options = "type") then stable_sort type_before items
    else stable_sort name_before items in
  if reverse_sort options then reverse items else items.
End sorting.



(** ** Notions used to state the further properties *)

Fixpoint has_slash (s : string) : bool :=
  match s with
  | EmptyString => false
  | String c s' => is_slash c || has_slash s'
  end.

(** A path segment: not empty, no slash. *)
Definition segment (p : string) : Prop := p ≠ "" ∧ has_slash p = false.

(** ["/" + p1 + "/" + p2 + ...] *)
Fixpoint join_path (parts : list string) : string :=
  match parts with
  | [] => EmptyString
  | p :: rest => "/" +:+ p +:+ join_path rest
  end.

(** The name that a request asks for, when it is a lookup by name. *)
Definition lookup_name (rq : request) : option string :=
  match rq_query rq with
  | QFolderNamed _ name => Some name
  | _ => None
  end.

(** The folder whose children a request asks for. *)
Definition listed_folder (rq : request) : option string :=
  match rq_query rq with
  | QChildren parent => Some parent
  | QAll parent => Some parent
  | QFolderNamed _ _ => None
  end.

(** What a request of the path walk looks like. *)
Definition is_lookup (rq : request) : Prop :=
  rq_page rq = 0%nat ∧ listed_folder rq = None.

Definition answer_without_error (l : listing) : listing :=
  match l with
  | HttpError _ => LastPage []
  | other => other
  end.

(** [svc], except that a name lookup that fails answers "no such folder". *)
Definition lookups_without_errors (svc : service) : service :=
  mkService (children svc) (everything svc)
    (λ parent name, answer_without_error (folder_named svc parent name)).

(** A listing cut at its first failed page. *)
Fixpoint cut_at_failure (l : listing) : listing :=
  match l with
  | HttpError _ => LastPage []
  | LastPage files => LastPage files
  | Page files rest => Page files (cut_at_failure rest)
  end.

Definition children_cut_at_failure (svc : service) : service :=
  mkService (cut_at_failure <$> children svc) (everything svc) (folder_named svc).

Fixpoint pages (l : listing) : nat :=
  match l with
  | HttpError _ => 1
  | LastPage _ => 1
  | Page _ rest => S (pages rest)
  end.

(** The requests for the first [n] pages of a query. *)
Definition page_requests (q : query) (n : nat) : list request :=
  mkRequest q <$> seq 0 n.

Definition valid_item (item : api_item) : Prop :=
  item_id item ≠ "" ∧ item_name item ≠ "".

#[global] Instance valid_item_dec item : Decision (valid_item item).
Proof. unfold valid_item. apply _. Defined.

(** The [DriveItem] that [_convert_to_drive_items] builds from a valid
    item. *)
Definition drive_item_of (item : api_item) : DriveItem :=
  mkDriveItem (item_id item) (item_name item) (default "" (item_mimeType item))
    (item_size item) (default true (item_ownedByMe item))
    (default false (item_shared item)) None.

(** Both namespaces are present, as after [DriveCache.__init__]. *)
Definition has_namespaces (c : DriveCache) : Prop :=
  is_Some (paths (_cache_data c)) ∧ is_Some (folder_sizes (_cache_data c)).

(** [item] without its calculated size. *)
Definition without_calculated_size (item : DriveItem) : DriveItem :=
  mkDriveItem (di_id item) (di_name item) (di_mime_type item) (di_size item)
    (di_owned_by_me item) (di_shared item) None.

(** * Properties of the cache *)

Lemma length_append (s1 s2 : string) :
  String.length (s1 +:+ s2) = (String.length s1 + String.length s2)%nat.
Proof. induction s1 as [|c s1 IH]; simpl; [done | by rewrite IH]. Qed.

Lemma size_key_neq (folder_id : string) : size_key folder_id ≠ folder_id.
Proof.
  intros H. apply (f_equal String.length) in H.
  unfold size_key in H. rewrite length_append in H.
  simpl in H. lia.
Qed.

Lemma load_cache_tolerant (f : store) :
  content f = Missing ∨ content f = Unreadable ∨ content f = Garbled →
  _load_cache f = Return empty_cache_data.
Proof. unfold _load_cache. intros [-> | [-> | ->]]; reflexivity. Qed.

Lemma load_cache_object (f : store) (d : cache_data) :
  content f = Document (JObject d) →
  _load_cache f =
    Return (mkCacheData (Some (default ∅ (paths d)))
                        (Some (default ∅ (folder_sizes d)))).
Proof. unfold _load_cache. intros ->. reflexivity. Qed.

(** A cache that [DriveCache.__init__] has built has both namespaces. *)
Lemma DriveCache_new_namespaces (f : store) (c : DriveCache) :
  DriveCache_new f = Return c →
  cache_file c = f ∧
  ∃ ps fs, _cache_data c = mkCacheData (Some ps) (Some fs).
Proof.
  unfold DriveCache_new, _load_cache.
  destruct (content f) as [| | | |[d| | | |]]; simpl; intros H;
    inversion H; subst; simpl; split; eauto.
Qed.

Lemma save_cache_failure (c : DriveCache) :
  writable (cache_file c) = false →
  _save_cache c =
    (Raise (DriveCacheError "Failed to save cache"),
     mkDriveCache (_cache_data c) (after_failed_write (cache_file c))).
Proof. unfold _save_cache. intros ->. reflexivity. Qed.

Lemma save_cache_success (c : DriveCache) :
  writable (cache_file c) = true →
  _save_cache c =
    (Return tt,
     mkDriveCache (_cache_data c)
       (mkStore (Document (JObject (_cache_data c))) true
          (failure (cache_file c)))).
Proof. unfold _save_cache. intros ->. reflexivity. Qed.

(** A failed write is raised to the caller by every mutating operation. *)
Lemma persist_failure_propagates (now : Z) (k : string) (pinfo : PathInfo)
    (n : Z) (c : DriveCache) :
  writable (cache_file c) = false →
  (set_path now k pinfo c).1 = Raise (DriveCacheError "Failed to save cache") ∧
  (set_folder_size now k n c).1 = Raise (DriveCacheError "Failed to save cache") ∧
  (clear c).1 = Raise (DriveCacheError "Failed to save cache").
Proof.
  intros Hw. unfold set_path, set_folder_size, clear.
  rewrite !save_cache_failure by exact Hw. done.
Qed.

(** C7 (the defect).  A backing file that holds valid JSON which is not an
    object, here the empty array, makes [DriveCache.__init__] raise
    [TypeError]: the assignment [data['paths'] = {}] fails on a list and the
    handler only catches [JSONDecodeError] and [IOError].  The files the
    handler does cover are in [load_cache_tolerant], and the propagation of
    write failures in [persist_failure_propagates]. *)
Theorem DriveCache_new_non_object_raises (wr : bool) (wf : write_failure) :
  DriveCache_new (mkStore (Document JEmptyArray) wr wf) = Raise TypeError.
Proof. reflexivity. Qed.

Lemma get_folder_size_Some (now : Z) (folder_id : string) (c : DriveCache) (n : Z) :
  get_folder_size now folder_id c = Some n →
  ∃ fs cached,
    folder_sizes (_cache_data c) = Some fs ∧
    fs !! size_key folder_id = Some cached ∧
    se_size cached = Some n ∧
    (now - default 0 (se_timestamp cached) ≤ CACHE_TTL_SECONDS)%Z.
Proof.
  unfold get_folder_size.
  destruct (folder_sizes (_cache_data c)) as [fs|]; [|done].
  destruct (fs !! size_key folder_id) as [cached|] eqn:Hk; [|done].
  intros H. exists fs, cached.
  destruct (se_size cached) as [sz|], (se_timestamp cached) as [ts|];
    simpl in *; try done;
    match type of H with
    | context [?a >? ?b] => destruct (Z.gtb_spec a b); [done|]
    end; repeat split; try done; lia.
Qed.

Lemma get_folder_size_expired (now : Z) (folder_id : string) (c : DriveCache)
    (fs : gmap string size_entry) (cached : size_entry) :
  folder_sizes (_cache_data c) = Some fs →
  fs !! size_key folder_id = Some cached →
  (now - default 0 (se_timestamp cached) > CACHE_TTL_SECONDS)%Z →
  get_folder_size now folder_id c = None.
Proof.
  unfold get_folder_size. intros -> -> Hage.
  destruct (se_size cached), (se_timestamp cached); simpl in *; try done;
    match goal with
    | |- context [?a >? ?b] => destruct (Z.gtb_spec a b); [done | lia]
    end.
Qed.

Lemma set_folder_size_entry (now : Z) (folder_id : string) (n : Z) (c : DriveCache) :
  ∃ fs,
    folder_sizes (_cache_data (set_folder_size now folder_id n c).2) = Some fs ∧
    fs !! size_key folder_id = Some (mkSizeEntry (Some n) (Some now)) ∧
    (∀ k, k ≠ size_key folder_id →
          fs !! k = default ∅ (folder_sizes (_cache_data c)) !! k) ∧
    paths (_cache_data (set_folder_size now folder_id n c).2) = paths (_cache_data c).
Proof.
  unfold set_folder_size, _save_cache. simpl.
  destruct (writable (cache_file c)); simpl;
    (eexists; split; [reflexivity|]; split; [apply lookup_insert_eq|];
     split; [intros k Hk; by apply lookup_insert_ne | reflexivity]).
Qed.

(** * Properties of the size traversal *)

Section loops.
Context (descend descend' : string → option (Z * list request)).

Lemma add_items_total items acc :
  (∀ c, is_Some (descend c)) → is_Some (add_items descend items acc).
Proof.
  intros Hd. revert acc. induction items as [|item items IH]; intros acc; simpl.
  - eauto.
  - unfold add_item. destruct (item_size item); [apply IH|].
    case_decide; [|apply IH].
    destruct (Hd (item_id item)) as [[n rqs] ->]. apply IH.
Qed.

Lemma add_pages_total folder_id l page acc :
  (∀ c, is_Some (descend c)) →
  is_Some (add_pages descend folder_id l page acc).
Proof.
  intros Hd. revert page acc.
  induction l as [e|files|files rest IH]; intros page acc; simpl.
  - eauto.
  - by apply add_items_total.
  - destruct (add_items_total files
                (acc.1, acc.2 ++ [mkRequest (QChildren folder_id) page]) Hd)
      as [acc' ->].
    apply IH.
Qed.

Hypothesis descend_mono : ∀ c r, descend c = Some r → descend' c = Some r.

Lemma add_items_mono items acc r :
  add_items descend items acc = Some r → add_items descend' items acc = Some r.
Proof.
  revert acc. induction items as [|item items IH]; intros acc; simpl; [done|].
  unfold add_item. destruct (item_size item); [apply IH|].
  case_decide; [|apply IH].
  destruct (descend (item_id item)) as [[n rqs]|] eqn:Hc; [|done].
  rewrite (descend_mono _ _ Hc). apply IH.
Qed.

Lemma add_pages_mono folder_id l page acc r :
  add_pages descend folder_id l page acc = Some r →
  add_pages descend' folder_id l page acc = Some r.
Proof.
  revert page acc. induction l as [e|files|files rest IH]; intros page acc; simpl.
  - done.
  - apply add_items_mono.
  - destruct (add_items descend files _) as [acc'|] eqn:Hi; [|done].
    rewrite (add_items_mono _ _ _ Hi). apply IH.
Qed.
End loops.

Lemma recursive_folder_size_visited (fuel : nat) (svc : service)
    (folder_id : string) (visited : gset string) :
  folder_id ∈ visited →
  _recursive_folder_size (S fuel) svc folder_id visited = Some (0, []).
Proof. intros Hin. simpl. by rewrite decide_True. Qed.

(** Enough fuel gives a result: one unit for every folder of the graph that
    is not yet on the branch, and one more. *)
Lemma recursive_folder_size_terminates (svc : service) (fuel : nat)
    (folder_id : string) (visited : gset string) :
  (size (dom (children svc) ∖ visited) < fuel)%nat →
  is_Some (_recursive_folder_size fuel svc folder_id visited).
Proof.
  revert folder_id visited.
  induction fuel as [|fuel IH]; intros folder_id visited Hfuel; [lia|].
  simpl. case_decide as Hin; [eauto|].
  unfold children_of.
  destruct (children svc !! folder_id) as [l|] eqn:Hl; simpl; [|eauto].
  apply add_pages_total. intros c. apply IH.
  assert (dom (children svc) ∖ ({[folder_id]} ∪ visited)
            ⊂ dom (children svc) ∖ visited) as Hsub.
  { assert (folder_id ∈ dom (children svc)) as Hdom by (apply elem_of_dom; eauto).
    split.
    - intros x. rewrite !elem_of_difference, elem_of_union. tauto.
    - intros Hsup. specialize (Hsup folder_id).
      rewrite !elem_of_difference, elem_of_union, elem_of_singleton in Hsup.
      tauto. }
  apply subset_size in Hsub. lia.
Qed.

Lemma recursive_folder_size_mono (svc : service) (fuel fuel' : nat)
    (folder_id : string) (visited : gset string) (r : Z * list request) :
  (fuel ≤ fuel')%nat →
  _recursive_folder_size fuel svc folder_id visited = Some r →
  _recursive_folder_size fuel' svc folder_id visited = Some r.
Proof.
  revert fuel' folder_id visited r.
  induction fuel as [|fuel IH]; intros fuel' folder_id visited r Hle; [done|].
  destruct fuel' as [|fuel']; [lia|]. simpl.
  case_decide; [done|].
  apply add_pages_mono. intros c rc. apply IH. lia.
Qed.

Lemma traversal_fuel_enough (svc : service) (folder_id : string) :
  is_Some (_recursive_folder_size (traversal_fuel svc) svc folder_id ∅).
Proof.
  apply recursive_folder_size_terminates.
  unfold traversal_fuel. rewrite difference_empty_L, size_dom. lia.
Qed.

Lemma calculate_folder_size_returns (svc : service) (folder_id : string) (w : world) :
  is_Some (calculate_folder_size svc folder_id w).
Proof.
  unfold calculate_folder_size. case_decide; [eauto|].
  destruct (get_folder_size _ _ _); [eauto|].
  destruct (traversal_fuel_enough svc folder_id) as [[total rqs] ->].
  destruct (set_folder_size _ _ _ _) as [[[]|e] c]; eauto.
Qed.

Section cut.
Context (V : gset string) (descend descend' : string → option (Z * list request)).
Hypothesis descend_mono : ∀ c r, descend c = Some r → descend' c = Some r.
Hypothesis descend_cut : ∀ c r, c ∈ V → descend c = Some r → r = (0, []).

Lemma add_items_drop items acc r :
  add_items descend items acc = Some r →
  add_items descend' (filter (λ item, ¬ points_into V item) items) acc = Some r.
Proof.
  revert acc. induction items as [|item items IH]; intros acc; simpl; [done|].
  rewrite filter_cons. case_decide as Hkeep.
  - simpl. unfold add_item. destruct (item_size item); [apply IH|].
    case_decide; [|apply IH].
    destruct (descend (item_id item)) as [[n rqs]|] eqn:Hc; [|done].
    rewrite (descend_mono _ _ Hc). apply IH.
  - destruct Hkeep as [[Hsz Hmime] HinV].
    unfold add_item. rewrite Hsz, decide_True by done.
    destruct (descend (item_id item)) as [[n rqs]|] eqn:Hc; [|done].
    apply descend_cut in Hc; [|done]. inversion Hc; subst.
    rewrite Z.add_0_r, app_nil_r. destruct acc. apply IH.
Qed.

Lemma add_pages_drop folder_id l page acc r :
  add_pages descend folder_id l page acc = Some r →
  add_pages descend' folder_id (drop_edges V l) page acc = Some r.
Proof.
  revert page acc. induction l as [e|files|files rest IH]; intros page acc; simpl.
  - done.
  - apply add_items_drop.
  - destruct (add_items descend files _) as [acc'|] eqn:Hi; [|done].
    rewrite (add_items_drop _ _ _ Hi). apply IH.
Qed.
End cut.

Lemma children_of_cut_edges (V : gset string) (svc : service) (id : string) :
  children_of (cut_edges V svc) id = drop_edges V (children_of svc id).
Proof.
  unfold children_of, cut_edges. simpl. rewrite lookup_fmap.
  by destruct (children svc !! id).
Qed.

(** Edges into folders that are already on the branch add nothing: without
    them the traversal returns the same total after the same requests. *)
Lemma recursive_folder_size_cut (V : gset string) (svc : service) (fuel : nat)
    (folder_id : string) (visited : gset string) (r : Z * list request) :
  V ⊆ {[folder_id]} ∪ visited →
  _recursive_folder_size fuel svc folder_id visited = Some r →
  _recursive_folder_size fuel (cut_edges V svc) folder_id visited = Some r.
Proof.
  revert folder_id visited r.
  induction fuel as [|fuel IH]; intros folder_id visited r HV; [done|].
  simpl. case_decide as Hin; [done|].
  rewrite children_of_cut_edges.
  apply add_pages_drop.
  - intros c rc. apply IH. set_solver.
  - intros c rc Hc. destruct fuel as [|fuel]; [done|].
    rewrite recursive_folder_size_visited by set_solver. congruence.
Qed.

Lemma traversal_fuel_cut_edges (V : gset string) (svc : service) :
  traversal_fuel (cut_edges V svc) = traversal_fuel svc.
Proof. unfold traversal_fuel, cut_edges. simpl. by rewrite map_size_fmap. Qed.

Section sums.
Context (below : string → Z) (descend : string → option (Z * list request)).

Lemma sum_list_cons (x : Z) (l : list Z) : sum_list (x :: l) = x + sum_list l.
Proof. reflexivity. Qed.

Lemma sum_list_app (l1 l2 : list Z) :
  sum_list (l1 ++ l2) = sum_list l1 + sum_list l2.
Proof.
  induction l1 as [|x l1 IH]; [done|].
  rewrite <- app_comm_cons, !sum_list_cons, IH. lia.
Qed.

Lemma add_item_sum item acc acc' :
  (∀ n rqs, is_subfolder item →
      descend (item_id item) = Some (n, rqs) → n = below (item_id item)) →
  add_item descend item acc = Some acc' →
  acc'.1 = acc.1 + contribution below item.
Proof.
  intros Hd. unfold add_item, contribution.
  destruct (item_size item) as [sz|] eqn:Hsz; [by intros [= <-]|].
  case_decide as Hmime; [|intros [= <-]; lia].
  destruct (descend (item_id item)) as [[n rqs]|] eqn:Hc; [|done].
  intros [= <-]. simpl. by rewrite (Hd n rqs).
Qed.

Lemma add_items_sum items acc r :
  (∀ item n rqs, item ∈ items → is_subfolder item →
      descend (item_id item) = Some (n, rqs) → n = below (item_id item)) →
  add_items descend items acc = Some r →
  r.1 = acc.1 + sum_list (contribution below <$> items).
Proof.
  revert acc. induction items as [|item items IH]; intros acc Hd.
  - simpl. intros [= <-]. unfold sum_list. simpl. lia.
  - cbn [add_items]. destruct (add_item descend item acc) as [acc'|] eqn:Hitem; [|done].
    intros Hr. apply IH in Hr.
    + apply add_item_sum in Hitem.
      * rewrite fmap_cons, sum_list_cons. lia.
      * intros n rqs. apply Hd. by left.
    + intros item' n rqs Hin. apply Hd. by right.
Qed.

Lemma add_pages_sum folder_id l page acc r :
  (∀ item n rqs, item ∈ all_items l → is_subfolder item →
      descend (item_id item) = Some (n, rqs) → n = below (item_id item)) →
  add_pages descend folder_id l page acc = Some r →
  r.1 = acc.1 + sum_list (contribution below <$> all_items l).
Proof.
  revert page acc. induction l as [e|files|files rest IH]; intros page acc Hd; simpl.
  - intros [= <-]. unfold sum_list. simpl. lia.
  - intros Hr. by apply add_items_sum in Hr.
  - destruct (add_items descend files _) as [acc'|] eqn:Hi; [|done].
    intros Hr. apply IH in Hr.
    + apply add_items_sum in Hi.
      * simpl in Hi. rewrite fmap_app, sum_list_app. lia.
      * intros item n rqs Hin. apply Hd. simpl. apply elem_of_app. by left.
    + intros item n rqs Hin. apply Hd. simpl. apply elem_of_app. by right.
Qed.
End sums.

(** On an acyclic graph the visited set never stops a descent: the result is
    the sum over the whole subtree. *)
Lemma recursive_folder_size_acyclic (svc : service) (fuel : nat)
    (folder_id : string) (visited : gset string) (total : Z) (rqs : list request) :
  acyclic svc →
  (∀ v, v ∈ visited → tc (child svc) v folder_id) →
  _recursive_folder_size fuel svc folder_id visited = Some (total, rqs) →
  total = subtree_size fuel svc folder_id.
Proof.
  intros Hacyc. revert folder_id visited total rqs.
  induction fuel as [|fuel IH]; intros folder_id visited total rqs Hanc; [done|].
  simpl. case_decide as Hin.
  { destruct (Hacyc folder_id). by apply Hanc. }
  intros Hr.
  apply (add_pages_sum (subtree_size fuel svc)) in Hr; [simpl in Hr; lia|].
  intros item n rqs' Hitem Hsub Hc.
  eapply IH; [|exact Hc].
  intros v Hv.
  assert (child svc folder_id (item_id item)) as Hchild by (exists item; done).
  apply elem_of_union in Hv as [Hv|Hv].
  - apply elem_of_singleton in Hv as ->. by apply tc_once.
  - eapply tc_r; [by apply Hanc | done].
Qed.




Lemma well_ranked_acyclic (rank : string → nat) (svc : service) :
  well_ranked rank svc → acyclic svc.
Proof.
  intros Hrank.
  assert (∀ p c, tc (child svc) p c → (rank c < rank p)%nat) as Hlt.
  { induction 1 as [p c Hc|p c d Hc _ IH].
    - destruct Hc as (item & Hin & Hsub & <-).
      unfold children_of in Hin.
      destruct (children svc !! p) as [l|] eqn:Hl; simpl in Hin.
      + specialize (Hrank p l Hl). simpl in Hrank.
        rewrite Forall_forall in Hrank. by apply Hrank.
      + by apply elem_of_nil in Hin.
    - assert (rank c < rank p)%nat; [|lia].
      destruct Hc as (item & Hin & Hsub & <-).
      unfold children_of in Hin.
      destruct (children svc !! p) as [l|] eqn:Hl; simpl in Hin.
      + specialize (Hrank p l Hl). simpl in Hrank.
        rewrite Forall_forall in Hrank. by apply Hrank.
      + by apply elem_of_nil in Hin. }
  intros id Htc. apply Hlt in Htc. lia.
Qed.

(** What [calculate_folder_size] does when the cache has no fresh entry. *)
Lemma calculate_folder_size_miss (svc : service) (folder_id : string) (w : world)
    (total : Z) (rqs : list request) :
  folder_id ≠ "" →
  get_folder_size (clock w) folder_id (cache w) = None →
  _recursive_folder_size (traversal_fuel svc) svc folder_id ∅ = Some (total, rqs) →
  calculate_folder_size svc folder_id w =
    Some (match (set_folder_size (clock w) folder_id total (cache w)).1 with
          | Return _ => Return total
          | Raise e => Raise e
          end,
          mkWorld (set_folder_size (clock w) folder_id total (cache w)).2
                  (clock w) (log w ++ rqs)).
Proof.
  intros Hid Hmiss Hr. unfold calculate_folder_size.
  rewrite decide_False by done. rewrite Hmiss, Hr. simpl.
  destruct (set_folder_size _ _ _ _) as [[[]|e] c]; reflexivity.
Qed.

Lemma set_folder_size_writable (now : Z) (folder_id : string) (n : Z) (c : DriveCache) :
  writable (cache_file c) = true →
  (set_folder_size now folder_id n c).1 = Return tt.
Proof.
  intros Hw. unfold set_folder_size. by rewrite save_cache_success.
Qed.

Lemma get_set_folder_size (now t0 : Z) (folder_id : string) (n : Z) (c : DriveCache) :
  get_folder_size now folder_id (set_folder_size t0 folder_id n c).2
    = if now - t0 >? CACHE_TTL_SECONDS then None else Some n.
Proof.
  unfold get_folder_size.
  destruct (set_folder_size_entry t0 folder_id n c) as (fs & -> & -> & _).
  reflexivity.
Qed.

Lemma traversal_total (svc : service) (folder_id : string) (depth : nat)
    (total : Z) (rqs : list request) :
  acyclic svc →
  (traversal_fuel svc ≤ depth)%nat →
  _recursive_folder_size (traversal_fuel svc) svc folder_id ∅ = Some (total, rqs) →
  total = subtree_size depth svc folder_id.
Proof.
  intros Hacyc Hle Hr.
  apply (recursive_folder_size_mono _ _ depth) in Hr; [|done].
  eapply recursive_folder_size_acyclic; [done| |exact Hr].
  intros v Hv. by apply elem_of_empty in Hv.
Qed.

(** C1.  On every folder graph, cyclic or not, the computation returns:
    [calculate_folder_size] yields a result in every world, and
    [_recursive_folder_size] does so as soon as its fuel exceeds the number
    of folders of the graph that are not yet on the branch.  A folder met
    again on its own branch adds 0 and sends no request.  So, below a folder
    [A], every folder [D] adds exactly what it would add if it did not list
    [A] as a child (its other contents are counted as they are), and the
    size of [A] is the size it has in the graph without the edges back into
    [A].  This is what the call gives: [calculate_folder_size] on [A]
    returns the same, sends the same requests and caches the same as on
    the graph without the edges back into [A]; when the cache has no fresh
    entry it returns the total of the traversal, after the requests of the
    traversal (or raises [DriveCacheError] when that total cannot be
    written); and when the graph without those edges has no cycle left,
    this is the sum of the file sizes along its descents. *)
Theorem calculate_folder_size_cycle_safe (svc : service) (A : string) (w : world) :
  (∃ r w', calculate_folder_size svc A w = Some (r, w')) ∧
  (∀ fuel id visited,
      (size (dom (children svc) ∖ visited) < fuel)%nat →
      ∃ total rqs, _recursive_folder_size fuel svc id visited = Some (total, rqs)) ∧
  (∀ fuel id visited,
      id ∈ visited → _recursive_folder_size (S fuel) svc id visited = Some (0, [])) ∧
  (∀ fuel D visited r,
      A ∈ visited →
      _recursive_folder_size fuel svc D visited = Some r →
      _recursive_folder_size fuel (cut_edges {[A]} svc) D visited = Some r) ∧
  _recursive_folder_size (traversal_fuel (cut_edges {[A]} svc))
      (cut_edges {[A]} svc) A ∅
    = _recursive_folder_size (traversal_fuel svc) svc A ∅ ∧
  (acyclic (cut_edges {[A]} svc) →
   ∀ depth, (traversal_fuel svc ≤ depth)%nat →
     ∃ rqs, _recursive_folder_size (traversal_fuel svc) svc A ∅
              = Some (subtree_size depth (cut_edges {[A]} svc) A, rqs)) ∧
  calculate_folder_size (cut_edges {[A]} svc) A w
    = calculate_folder_size svc A w ∧
  (A ≠ "" →
   get_folder_size (clock w) A (cache w) = None →
   ∃ total rqs w',
     _recursive_folder_size (traversal_fuel svc) svc A ∅ = Some (total, rqs) ∧
     calculate_folder_size svc A w
       = Some (if writable (cache_file (cache w)) then Return total
               else Raise (DriveCacheError "Failed to save cache"), w') ∧
     log w' = log w ++ rqs ∧
     get_folder_size (clock w) A (cache w') = Some total) ∧
  (acyclic (cut_edges {[A]} svc) →
   A ≠ "" →
   get_folder_size (clock w) A (cache w) = None →
   writable (cache_file (cache w)) = true →
   ∀ depth, (traversal_fuel svc ≤ depth)%nat →
     ∃ w', calculate_folder_size svc A w
             = Some (Return (subtree_size depth (cut_edges {[A]} svc) A), w')).
Proof.
  assert (_recursive_folder_size (traversal_fuel (cut_edges {[A]} svc))
            (cut_edges {[A]} svc) A ∅
          = _recursive_folder_size (traversal_fuel svc) svc A ∅) as Hcut.
  { rewrite traversal_fuel_cut_edges.
    destruct (traversal_fuel_enough svc A) as [r Hr]. rewrite Hr.
    apply recursive_folder_size_cut; [set_solver | done]. }
  assert (acyclic (cut_edges {[A]} svc) →
          ∀ depth, (traversal_fuel svc ≤ depth)%nat →
            ∃ rqs, _recursive_folder_size (traversal_fuel svc) svc A ∅
                     = Some (subtree_size depth (cut_edges {[A]} svc) A, rqs))
    as Hsum.
  { intros Hacyc depth Hdepth. rewrite <- Hcut.
    destruct (traversal_fuel_enough (cut_edges {[A]} svc) A) as [[total rqs] Hr].
    rewrite Hr. exists rqs. do 2 f_equal.
    eapply traversal_total; [done| |exact Hr].
    by rewrite traversal_fuel_cut_edges. }
  split; [|split; [|split; [|split; [|split; [|split; [|split; [|split]]]]]]].
  - destruct (calculate_folder_size_returns svc A w) as [[r w'] ->]. eauto.
  - intros fuel id visited Hfuel.
    destruct (recursive_folder_size_terminates svc fuel id visited Hfuel)
      as [[total rqs] ->]. eauto.
  - intros fuel id visited. apply recursive_folder_size_visited.
  - intros fuel D visited r HA. apply recursive_folder_size_cut. set_solver.
  - exact Hcut.
  - exact Hsum.
  - unfold calculate_folder_size. by rewrite Hcut.
  - intros Hid Hmiss.
    destruct (traversal_fuel_enough svc A) as [[total rqs] Hr].
    exists total, rqs,
      (mkWorld (set_folder_size (clock w) A total (cache w)).2
         (clock w) (log w ++ rqs)).
    rewrite (calculate_folder_size_miss _ _ _ _ _ Hid Hmiss Hr).
    split; [done|]. split; [|split; [reflexivity|]].
    + destruct (writable (cache_file (cache w))) eqn:Hw.
      * by rewrite set_folder_size_writable.
      * by rewrite (proj1 (proj2
          (persist_failure_propagates (clock w) A root_info total _ Hw))).
    + cbn [cache]. rewrite get_set_folder_size. unfold CACHE_TTL_SECONDS.
      destruct (Z.gtb_spec (clock w - clock w) (60 * 60)); [lia|done].
  - intros Hacyc Hid Hmiss Hw depth Hdepth.
    destruct (Hsum Hacyc depth Hdepth) as [rqs Hr].
    rewrite (calculate_folder_size_miss _ _ _ _ _ Hid Hmiss Hr).
    rewrite set_folder_size_writable by done. eauto.
Qed.

Lemma cyclic_drive_cut_acyclic : acyclic (cut_edges {["A"]} cyclic_drive).
Proof.
  apply (well_ranked_acyclic cyclic_rank).
  apply (bool_decide_unpack _). vm_compute. exact I.
Qed.

Lemma calculate_folder_size_cycle_safe_witness :
  (∃ w', calculate_folder_size cyclic_drive "A" (fresh_world 0)
           = Some (Return (subtree_size 3 (cut_edges {["A"]} cyclic_drive) "A"), w')) ∧
  subtree_size 3 (cut_edges {["A"]} cyclic_drive) "A" = 12.
Proof.
  assert (acyclic (cut_edges {["A"]} cyclic_drive)) as H1
    by exact cyclic_drive_cut_acyclic.
  assert ("A" ≠ "") as H2 by discriminate.
  assert (get_folder_size (clock (fresh_world 0)) "A" (cache (fresh_world 0)) = None)
    as H3 by reflexivity.
  assert (writable (cache_file (cache (fresh_world 0))) = true) as H4 by reflexivity.
  assert (traversal_fuel cyclic_drive ≤ 3)%nat as H5 by (vm_compute; lia).
  destruct (calculate_folder_size_cycle_safe cyclic_drive "A" (fresh_world 0))
    as (_ & _ & _ & _ & _ & _ & _ & _ & Hsum).
  split; [exact (Hsum H1 H2 H3 H4 3%nat H5)|].
  vm_compute. reflexivity.
Defined.

(** The cycle A -> D -> A: each file is counted once, whichever folder the
    computation starts from. *)
Example cyclic_drive_sizes :
  fst <$> calculate_folder_size cyclic_drive "A" (fresh_world 0) = Some (Return 12) ∧
  fst <$> calculate_folder_size cyclic_drive "D" (fresh_world 0) = Some (Return 12).
Proof. split; vm_compute; reflexivity. Qed.










(** * Expiry of cached sizes *)

Section requests.
Context (descend : string → option (Z * list request)).

Lemma add_items_requests items acc r :
  add_items descend items acc = Some r → ∃ more, r.2 = acc.2 ++ more.
Proof.
  revert acc. induction items as [|item items IH]; intros acc; simpl.
  - intros [= <-]. exists []. by rewrite app_nil_r.
  - unfold add_item. destruct (item_size item).
    + intros Hr. by apply IH in Hr.
    + case_decide; [|apply IH].
      destruct (descend (item_id item)) as [[n rqs]|]; [|done].
      intros Hr. apply IH in Hr as [more ->]. simpl.
      exists (rqs ++ more). by rewrite app_assoc.
Qed.

Lemma add_pages_requests folder_id l page acc r :
  add_pages descend folder_id l page acc = Some r →
  ∃ more, r.2 = acc.2 ++ mkRequest (QChildren folder_id) page :: more.
Proof.
  revert page acc. induction l as [e|files|files rest IH]; intros page acc; simpl.
  - intros [= <-]. by exists [].
  - intros Hr. apply add_items_requests in Hr as [more ->]. simpl.
    exists more. by rewrite <- app_assoc.
  - destruct (add_items descend files _) as [acc'|] eqn:Hi; [|done].
    apply add_items_requests in Hi as [more Hmore]. simpl in Hmore.
    intros Hr. apply IH in Hr as [more' ->]. rewrite Hmore.
    eexists. rewrite <- !app_assoc. reflexivity.
Qed.
End requests.

(** A traversal that is not stopped at once asks for the first page of the
    folder. *)
Lemma recursive_folder_size_requests (svc : service) (fuel : nat)
    (folder_id : string) (total : Z) (rqs : list request) :
  _recursive_folder_size fuel svc folder_id ∅ = Some (total, rqs) →
  ∃ more, rqs = mkRequest (QChildren folder_id) 0 :: more.
Proof.
  destruct fuel as [|fuel]; [done|]. simpl.
  rewrite decide_False by apply not_elem_of_empty.
  intros Hr. apply add_pages_requests in Hr as [more Hmore].
  simpl in Hmore. by exists more.
Qed.

(** C3.  [get_folder_size] returns a size only from an entry whose age is at
    most the TTL, and an older entry is as good as none.  A size cached at
    [t0] is still returned at [t0 + TTL]; at [t0 + TTL + 1] it is not, and
    [calculate_folder_size] traverses the folder again (it asks the service
    for the children), returns the fresh total and stores it with the new
    time stamp. *)
Theorem cached_size_expires (svc : service) (folder_id : string) (n t0 : Z)
    (c0 : DriveCache) (w : world) :
  folder_id ≠ "" →
  cache w = (set_folder_size t0 folder_id n c0).2 →
  clock w = t0 + CACHE_TTL_SECONDS + 1 →
  (∀ now c m, get_folder_size now folder_id c = Some m →
     ∃ fs cached,
       folder_sizes (_cache_data c) = Some fs ∧
       fs !! size_key folder_id = Some cached ∧
       se_size cached = Some m ∧
       (now - default 0 (se_timestamp cached) ≤ CACHE_TTL_SECONDS)%Z) ∧
  (∀ now c fs cached,
     folder_sizes (_cache_data c) = Some fs →
     fs !! size_key folder_id = Some cached →
     (now - default 0 (se_timestamp cached) > CACHE_TTL_SECONDS)%Z →
     get_folder_size now folder_id c = None) ∧
  get_folder_size (t0 + CACHE_TTL_SECONDS) folder_id (cache w) = Some n ∧
  get_folder_size (clock w) folder_id (cache w) = None ∧
  ∃ total more r w' fs,
    _recursive_folder_size (traversal_fuel svc) svc folder_id ∅
      = Some (total, mkRequest (QChildren folder_id) 0 :: more) ∧
    calculate_folder_size svc folder_id w = Some (r, w') ∧
    log w' = log w ++ mkRequest (QChildren folder_id) 0 :: more ∧
    (writable (cache_file (cache w)) = true → r = Return total) ∧
    folder_sizes (_cache_data (cache w')) = Some fs ∧
    fs !! size_key folder_id = Some (mkSizeEntry (Some total) (Some (clock w))).
Proof.
  intros Hid Hcache Hclock.
  split; [intros now c m; apply get_folder_size_Some|].
  split; [intros now c fs cached; apply get_folder_size_expired|].
  assert (get_folder_size (clock w) folder_id (cache w) = None) as Hmiss.
  { rewrite Hcache, Hclock, get_set_folder_size.
    unfold CACHE_TTL_SECONDS.
    destruct (Z.gtb_spec (t0 + 60 * 60 + 1 - t0) (60 * 60)); [done|lia]. }
  split.
  { rewrite Hcache, get_set_folder_size. unfold CACHE_TTL_SECONDS.
    destruct (Z.gtb_spec (t0 + 60 * 60 - t0) (60 * 60)); [lia|done]. }
  split; [exact Hmiss|].
  destruct (traversal_fuel_enough svc folder_id) as [[total rqs] Hr].
  destruct (recursive_folder_size_requests _ _ _ _ _ Hr) as [more ->].
  destruct (set_folder_size_entry (clock w) folder_id total (cache w))
    as (fs & Hfs & Hentry & _).
  exists total, more. eexists _, _, fs.
  split; [exact Hr|].
  split; [exact (calculate_folder_size_miss _ _ _ _ _ Hid Hmiss Hr)|].
  split; [reflexivity|].
  split; [intros Hw; by rewrite set_folder_size_writable|].
  split; [exact Hfs | exact Hentry].
Qed.

Lemma cached_size_expires_witness :
  get_folder_size 3600 "A" (set_folder_size 0 "A" 99 fresh_cache).2 = Some 99 ∧
  get_folder_size 3601 "A" (set_folder_size 0 "A" 99 fresh_cache).2 = None ∧
  fst <$> calculate_folder_size tree_drive "A"
            (mkWorld (set_folder_size 0 "A" 99 fresh_cache).2 3601 [])
    = Some (Return 12).
Proof.
  pose (w := mkWorld (set_folder_size 0 "A" 99 fresh_cache).2 3601 []).
  assert ("A" ≠ "") as H1 by discriminate.
  assert (cache w = (set_folder_size 0 "A" 99 fresh_cache).2) as H2 by reflexivity.
  assert (clock w = 0 + CACHE_TTL_SECONDS + 1) as H3 by reflexivity.
  destruct (cached_size_expires tree_drive "A" 99 0 fresh_cache w H1 H2 H3)
    as (_ & _ & Hfresh & Hstale & _).
  split; [exact Hfresh|]. split; [exact Hstale|].
  vm_compute. reflexivity.
Defined.

(** * The layout of the cache *)

(** C9 (as stated, it fails).  After [set_folder_size "abc" 5] on an empty
    cache the namespace [folder_sizes] has no entry under the key ["abc"]. *)
Lemma folder_sizes_not_keyed_by_id :
  (set_folder_size 1000 "abc" 5 fresh_cache).1 = Return tt ∧
  ¬ ∃ fs entry,
      folder_sizes (_cache_data (set_folder_size 1000 "abc" 5 fresh_cache).2) = Some fs ∧
      fs !! "abc" = Some entry.
Proof.
  split; [reflexivity|].
  intros (fs & entry & Hfs & Hentry).
  vm_compute in Hfs. inversion Hfs; subst fs. vm_compute in Hentry. discriminate.
Qed.

(** C9 (amended).  A cache built by [DriveCache.__init__] holds the two
    namespaces, and so does its file after a write.  [set_folder_size id n]
    stores size and time stamp under the key ["size_" + id]; the entry under
    the key [id] itself, if there is one, is left as it was.
    [get_folder_size id] reads the same key back. *)
Theorem set_folder_size_keyed_by_size_key (f : store) (c : DriveCache) (now : Z)
    (folder_id : string) (n : Z) :
  DriveCache_new f = Return c →
  writable f = true →
  ∃ c' ps fs,
    set_folder_size now folder_id n c = (Return tt, c') ∧
    _cache_data c' = mkCacheData (Some ps) (Some fs) ∧
    content (cache_file c') = Document (JObject (mkCacheData (Some ps) (Some fs))) ∧
    fs !! ("size_" +:+ folder_id) = Some (mkSizeEntry (Some n) (Some now)) ∧
    fs !! folder_id = default ∅ (folder_sizes (_cache_data c)) !! folder_id ∧
    get_folder_size now folder_id c' = Some n.
Proof.
  intros Hnew Hw.
  destruct (DriveCache_new_namespaces f c Hnew) as (Hf & ps & fs & Hdata).
  assert (get_folder_size now folder_id (set_folder_size now folder_id n c).2 = Some n)
    as Hget.
  { rewrite get_set_folder_size. unfold CACHE_TTL_SECONDS.
    destruct (Z.gtb_spec (now - now) (60 * 60)); [lia|done]. }
  revert Hget.
  unfold set_folder_size. rewrite save_cache_success by (simpl; congruence).
  rewrite Hdata. simpl. intros Hget.
  eexists _, ps, _. split; [reflexivity|]. simpl.
  split; [reflexivity|]. split; [reflexivity|].
  split; [apply lookup_insert_eq|].
  split; [|exact Hget].
  apply lookup_insert_ne, size_key_neq.
Qed.

Lemma set_folder_size_keyed_by_size_key_witness :
  ∃ c' ps fs,
    set_folder_size 1000 "abc" 5 fresh_cache = (Return tt, c') ∧
    _cache_data c' = mkCacheData (Some ps) (Some fs) ∧
    content (cache_file c') = Document (JObject (mkCacheData (Some ps) (Some fs))) ∧
    fs !! "size_abc" = Some (mkSizeEntry (Some 5) (Some 1000)) ∧
    fs !! "abc" = default ∅ (folder_sizes (_cache_data fresh_cache)) !! "abc" ∧
    get_folder_size 1000 "abc" c' = Some 5.
Proof.
  assert (DriveCache_new fresh_store = Return fresh_cache) as H1 by reflexivity.
  assert (writable fresh_store = true) as H2 by reflexivity.
  exact (set_folder_size_keyed_by_size_key fresh_store fresh_cache 1000 "abc" 5 H1 H2).
Defined.

(** * Properties of path resolution *)

Lemma resolve_root (svc : service) (w : world) :
  resolve svc "" w = (Return root_info, w) ∧
  resolve svc "/" w = (Return root_info, w).
Proof. split; reflexivity. Qed.

(** [resolve] on a path that is neither empty nor ["/"]. *)
Lemma resolve_unfold (svc : service) (path : string) (w : world) :
  path ≠ "" → path ≠ "/" →
  resolve svc path w =
    match get_path path (cache w) with
    | Raise e => (Raise e, w)
    | Return (Some cached) => (Return cached, w)
    | Return None =>
        match _resolve_path_components svc path with
        | (Raise e, rqs) => (Raise e, with_requests w rqs)
        | (Return path_info, rqs) =>
            (match (set_path (clock w) path path_info (cache w)).1 with
             | Raise e => Raise e
             | Return _ => Return path_info
             end,
             mkWorld (set_path (clock w) path path_info (cache w)).2
                     (clock w) (log w ++ rqs))
        end
    end.
Proof.
  intros H1 H2. unfold resolve.
  rewrite (decide_False (P := path = "")) by done.
  rewrite decide_False by done.
  destruct (get_path path (cache w)) as [[cached|]|e]; try reflexivity.
  destruct (_resolve_path_components svc path) as [[path_info|e] rqs]; [|reflexivity].
  simpl. destruct (set_path _ _ _ _) as [[[]|e] c]; reflexivity.
Qed.

(** The walk along the segments raises nothing but [DrivePathNotFoundError],
    with the message that names the segment and the path. *)
Lemma walk_parts_raises (svc : service) (path : string) (parts : list string)
    (current_id current_name : string) (e : exn) (rqs : list request) :
  walk_parts svc path parts current_id current_name = (Raise e, rqs) →
  ∃ part, part ∈ parts ∧ e = DrivePathNotFoundError (not_found_in_path part path).
Proof.
  revert current_id current_name rqs.
  induction parts as [|part rest IH]; intros current_id current_name rqs; simpl; [done|].
  unfold _find_folder_in_parent.
  destruct (folder_named svc current_id part) as [err|[|it items]|[|it items] more];
    simpl;
    try (intros [= <- <-]; exists part; split; [by left | done]);
    (destruct (walk_parts svc path rest (item_id it) (item_name it)) as [r rqs'] eqn:Hw;
     intros [= -> <-]; apply IH in Hw as (part' & Hin & ->);
     exists part'; split; [by right | done]).
Qed.

Lemma walk_parts_app (svc : service) (path : string) (pre post : list string)
    (current_id current_name : string) :
  walk_parts svc path (pre ++ post) current_id current_name =
    match walk_parts svc path pre current_id current_name with
    | (Return (next_id, next_name), rqs) =>
        let '(r, rqs') := walk_parts svc path post next_id next_name in
        (r, rqs ++ rqs')
    | (Raise e, rqs) => (Raise e, rqs)
    end.
Proof.
  revert current_id current_name.
  induction pre as [|part pre IH]; intros current_id current_name; simpl.
  - by destruct (walk_parts svc path post current_id current_name).
  - destruct (_find_folder_in_parent svc current_id part) as [[[i n]|e] rqs].
    + rewrite IH.
      destruct (walk_parts svc path pre i n) as [[[i' n']|e'] rqs1]; [|done].
      destruct (walk_parts svc path post i' n') as [r rqs2].
      by rewrite app_assoc.
    + by destruct e.
Qed.

(** C4.  When the walk along the segments of a path fails at some segment,
    [resolve] raises [DrivePathNotFoundError] for that segment and leaves
    the cache, in memory and on file, as it was: [set_path] is reached only
    after the whole chain has been resolved.  More generally no
    [DrivePathNotFoundError] of [resolve] comes with a changed cache. *)
Theorem resolve_failure_leaves_cache (svc : service) (path : string) (w : world)
    (e : exn) (rqs : list request) :
  path ≠ "" → path ≠ "/" →
  get_path path (cache w) = Return None →
  walk_parts svc path (path_parts path) "root" "My Drive" = (Raise e, rqs) →
  (∃ part, part ∈ path_parts path ∧
           e = DrivePathNotFoundError (not_found_in_path part path)) ∧
  resolve svc path w = (Raise e, with_requests w rqs) ∧
  cache (resolve svc path w).2 = cache w ∧
  (∀ p, get_path p (cache (resolve svc path w).2) = get_path p (cache w)) ∧
  (∀ svc' path' w' msg,
     (resolve svc' path' w').1 = Raise (DrivePathNotFoundError msg) →
     cache (resolve svc' path' w').2 = cache w').
Proof.
  intros H1 H2 Hmiss Hwalk.
  assert (resolve svc path w = (Raise e, with_requests w rqs)) as Hres.
  { rewrite resolve_unfold by done. rewrite Hmiss.
    unfold _resolve_path_components. by rewrite Hwalk. }
  split; [by eapply walk_parts_raises|].
  split; [exact Hres|]. rewrite Hres. simpl.
  split; [done|]. split; [done|].
  clear. intros svc path w msg.
  unfold resolve.
  destruct (decide ((if decide (path = "") then "/" else path) = "/")); [done|].
  destruct (get_path _ (cache w)) as [[cached|]|e]; try done.
  destruct (_resolve_path_components svc _) as [[path_info|e] rqs]; [|done].
  simpl. unfold set_path, _save_cache. simpl.
  destruct (writable (cache_file (cache w))); simpl; done.
Qed.

Lemma resolve_failure_leaves_cache_witness :
  resolve ab_service "/A/Z" (fresh_world 0) =
    (Raise (DrivePathNotFoundError "Folder 'Z' not found in path '/A/Z'"),
     with_requests (fresh_world 0)
       [mkRequest (QFolderNamed "root" "A") 0; mkRequest (QFolderNamed "a1" "Z") 0]) ∧
  cache (resolve ab_service "/A/Z" (fresh_world 0)).2 = fresh_cache.
Proof.
  assert ("/A/Z" ≠ "") as H1 by discriminate.
  assert ("/A/Z" ≠ "/") as H2 by discriminate.
  assert (get_path "/A/Z" (cache (fresh_world 0)) = Return None) as H3 by reflexivity.
  assert (walk_parts ab_service "/A/Z" (path_parts "/A/Z") "root" "My Drive" =
            (Raise (DrivePathNotFoundError "Folder 'Z' not found in path '/A/Z'"),
             [mkRequest (QFolderNamed "root" "A") 0;
              mkRequest (QFolderNamed "a1" "Z") 0])) as H4
    by (vm_compute; reflexivity).
  destruct (resolve_failure_leaves_cache ab_service "/A/Z" (fresh_world 0) _ _
              H1 H2 H3 H4) as (_ & Hres & Hcache & _).
  split; [exact Hres | exact Hcache].
Defined.

Lemma find_folder_first (svc : service) (parent_id folder_name : string)
    (it : api_item) (more : list api_item) :
  first_page (folder_named svc parent_id folder_name) = Some (it :: more) →
  _find_folder_in_parent svc parent_id folder_name =
    (Return (item_id it, item_name it),
     [mkRequest (QFolderNamed parent_id folder_name) 0]).
Proof.
  unfold _find_folder_in_parent.
  destruct (folder_named svc parent_id folder_name); simpl; intros [= ->]; done.
Qed.

Lemma find_folder_none (svc : service) (parent_id folder_name : string) :
  first_page (folder_named svc parent_id folder_name) = Some [] →
  _find_folder_in_parent svc parent_id folder_name =
    (Raise (DrivePathNotFoundError (not_found_in_parent folder_name)),
     [mkRequest (QFolderNamed parent_id folder_name) 0]).
Proof.
  unfold _find_folder_in_parent.
  destruct (folder_named svc parent_id folder_name); simpl; intros [= ->]; done.
Qed.

(** C8.  When the segments before [part] resolve and no folder named [part]
    is found under the folder they lead to, [resolve] (on a path that is not
    cached) raises [DrivePathNotFoundError] with the message
    [Folder '<part>' not found in path '<path>'], after one request for
    every segment up to and including [part]. *)
Theorem resolve_missing_segment (svc : service) (path : string) (w : world)
    (pre post : list string) (part current_id current_name : string)
    (rqs : list request) :
  path ≠ "" → path ≠ "/" →
  get_path path (cache w) = Return None →
  path_parts path = pre ++ part :: post →
  walk_parts svc path pre "root" "My Drive" = (Return (current_id, current_name), rqs) →
  first_page (folder_named svc current_id part) = Some [] →
  resolve svc path w =
    (Raise (DrivePathNotFoundError
              ("Folder '" +:+ part +:+ "' not found in path '" +:+ path +:+ "'")),
     with_requests w (rqs ++ [mkRequest (QFolderNamed current_id part) 0])).
Proof.
  intros H1 H2 Hmiss Hparts Hpre Hnone.
  rewrite resolve_unfold by done. rewrite Hmiss.
  unfold _resolve_path_components.
  rewrite Hparts, walk_parts_app, Hpre. simpl.
  by rewrite (find_folder_none _ _ _ Hnone).
Qed.

Lemma resolve_missing_segment_witness :
  resolve ab_service "/A/Z" (fresh_world 0) =
    (Raise (DrivePathNotFoundError "Folder 'Z' not found in path '/A/Z'"),
     with_requests (fresh_world 0)
       ([mkRequest (QFolderNamed "root" "A") 0]
          ++ [mkRequest (QFolderNamed "a1" "Z") 0])).
Proof.
  assert ("/A/Z" ≠ "") as H1 by discriminate.
  assert ("/A/Z" ≠ "/") as H2 by discriminate.
  assert (get_path "/A/Z" (cache (fresh_world 0)) = Return None) as H3 by reflexivity.
  assert (path_parts "/A/Z" = ["A"] ++ "Z" :: []) as H4 by (vm_compute; reflexivity).
  assert (walk_parts ab_service "/A/Z" ["A"] "root" "My Drive" =
            (Return ("a1", "a1"), [mkRequest (QFolderNamed "root" "A") 0])) as H5
    by (vm_compute; reflexivity).
  assert (first_page (folder_named ab_service "a1" "Z") = Some []) as H6
    by (vm_compute; reflexivity).
  exact (resolve_missing_segment ab_service "/A/Z" (fresh_world 0)
           ["A"] [] "Z" "a1" "a1" _ H1 H2 H3 H4 H5 H6).
Defined.

Lemma get_set_path (now : Z) (path : string) (path_info : PathInfo) (c : DriveCache) :
  pi_id path_info ≠ "" → pi_name path_info ≠ "" →
  get_path path (set_path now path path_info c).2 =
    Return (Some (mkPathInfo (pi_id path_info) (pi_name path_info) path)).
Proof.
  intros Hid Hname. unfold set_path, _save_cache, get_path. simpl.
  destruct (writable (cache_file c)); simpl; rewrite lookup_insert_eq; simpl;
    unfold PathInfo_new; by rewrite !decide_False by done.
Qed.

Lemma set_path_writable (now : Z) (path : string) (path_info : PathInfo) (c : DriveCache) :
  writable (cache_file c) = true →
  (set_path now path path_info c).1 = Return tt.
Proof. intros Hw. unfold set_path. by rewrite save_cache_success. Qed.

(** C5.  [resolve("")] and [resolve("/")] return the root at once: the world
    is unchanged (no request is logged) and the cache plays no part, whatever
    it holds.  On a cache without an entry for ["/A/B"], when A is found
    under the root and B under A, [resolve("/A/B")] sends exactly two
    requests, one for each segment, and stores the result; resolving the
    same string again sends none, whatever the service would answer. *)
Theorem resolve_lookups (svc : service) (w : world) (ia ib : api_item)
    (more_a more_b : list api_item) :
  get_path "/A/B" (cache w) = Return None →
  writable (cache_file (cache w)) = true →
  first_page (folder_named svc "root" "A") = Some (ia :: more_a) →
  first_page (folder_named svc (item_id ia) "B") = Some (ib :: more_b) →
  item_id ib ≠ "" → item_name ib ≠ "" →
  (∀ w0, resolve svc "" w0 = (Return root_info, w0)) ∧
  (∀ w0, resolve svc "/" w0 = (Return root_info, w0)) ∧
  ∃ w1,
    resolve svc "/A/B" w = (Return (mkPathInfo (item_id ib) (item_name ib) "/A/B"), w1) ∧
    log w1 = log w ++ [mkRequest (QFolderNamed "root" "A") 0;
                       mkRequest (QFolderNamed (item_id ia) "B") 0] ∧
    ∀ svc', resolve svc' "/A/B" w1
              = (Return (mkPathInfo (item_id ib) (item_name ib) "/A/B"), w1).
Proof.
  intros Hmiss Hw Ha Hb Hid Hname.
  split; [intros w0; reflexivity|]. split; [intros w0; reflexivity|].
  assert (_resolve_path_components svc "/A/B" =
            (Return (mkPathInfo (item_id ib) (item_name ib) "/A/B"),
             [mkRequest (QFolderNamed "root" "A") 0;
              mkRequest (QFolderNamed (item_id ia) "B") 0])) as Hwalk.
  { unfold _resolve_path_components.
    change (path_parts "/A/B") with ["A"; "B"]. simpl.
    rewrite (find_folder_first _ _ _ _ _ Ha), (find_folder_first _ _ _ _ _ Hb).
    simpl. unfold PathInfo_new. by rewrite !decide_False by done. }
  eexists. split; [|split].
  - rewrite resolve_unfold by discriminate. rewrite Hmiss, Hwalk.
    rewrite set_path_writable by done. reflexivity.
  - reflexivity.
  - intros svc'. rewrite resolve_unfold by discriminate. simpl.
    by rewrite get_set_path.
Qed.

Lemma resolve_lookups_witness :
  ∃ w1,
    resolve ab_service "/A/B" (fresh_world 0) = (Return (mkPathInfo "b1" "b1" "/A/B"), w1) ∧
    log w1 = [mkRequest (QFolderNamed "root" "A") 0; mkRequest (QFolderNamed "a1" "B") 0] ∧
    ∀ svc', resolve svc' "/A/B" w1 = (Return (mkPathInfo "b1" "b1" "/A/B"), w1).
Proof.
  assert (get_path "/A/B" (cache (fresh_world 0)) = Return None) as H1 by reflexivity.
  assert (writable (cache_file (cache (fresh_world 0))) = true) as H2 by reflexivity.
  assert (first_page (folder_named ab_service "root" "A") = Some (folder_item "a1" :: []))
    as H3 by (vm_compute; reflexivity).
  assert (first_page (folder_named ab_service (item_id (folder_item "a1")) "B")
            = Some (folder_item "b1" :: [])) as H4 by (vm_compute; reflexivity).
  assert (item_id (folder_item "b1") ≠ "") as H5 by discriminate.
  assert (item_name (folder_item "b1") ≠ "") as H6 by discriminate.
  destruct (resolve_lookups ab_service (fresh_world 0) _ _ _ _ H1 H2 H3 H4 H5 H6)
    as (_ & _ & Hres).
  exact Hres.
Defined.

Lemma path_parts_slashes (n : nat) : path_parts (slashes n) = [].
Proof.
  unfold path_parts, strip.
  assert (lstrip (slashes n) = "") as -> by (induction n; simpl; done).
  reflexivity.
Qed.

Lemma slashes_not_root (n : nat) :
  (2 ≤ n)%nat → slashes n ≠ "" ∧ slashes n ≠ "/".
Proof. destruct n as [|[|n]]; [lia|lia|]. intros _. simpl. split; discriminate. Qed.

(** C10.  A path of two or more slashes has no segment: the walk sends no
    request and ends at the root.  Such a path does not take the branch of
    ["/"]: [resolve] looks it up in the cache and returns what the cache
    holds for it; when the cache holds nothing it returns the root, sends no
    request, and stores the root under that very string, in memory and on
    file, so that the next [resolve] of the string is answered by the
    cache. *)
Theorem resolve_slashes (svc : service) (n : nat) (w : world) :
  (2 ≤ n)%nat →
  get_path (slashes n) (cache w) = Return None →
  writable (cache_file (cache w)) = true →
  path_parts (slashes n) = [] ∧
  _resolve_path_components svc (slashes n)
    = (Return (mkPathInfo "root" "My Drive" (slashes n)), []) ∧
  (∃ w1,
     resolve svc (slashes n) w = (Return (mkPathInfo "root" "My Drive" (slashes n)), w1) ∧
     log w1 = log w ∧
     (∃ ps, paths (_cache_data (cache w1)) = Some ps ∧
            ps !! slashes n = Some (mkPathEntry "root" "My Drive" (clock w))) ∧
     content (cache_file (cache w1)) = Document (JObject (_cache_data (cache w1))) ∧
     ∀ svc', resolve svc' (slashes n) w1
               = (Return (mkPathInfo "root" "My Drive" (slashes n)), w1)) ∧
  (∀ svc' w2 cached,
     get_path (slashes n) (cache w2) = Return (Some cached) →
     resolve svc' (slashes n) w2 = (Return cached, w2)).
Proof.
  intros Hn Hmiss Hw.
  destruct (slashes_not_root n Hn) as [H1 H2].
  assert (∀ svc0, _resolve_path_components svc0 (slashes n)
            = (Return (mkPathInfo "root" "My Drive" (slashes n)), [])) as Hwalk.
  { intros svc0. unfold _resolve_path_components.
    by rewrite path_parts_slashes. }
  split; [apply path_parts_slashes|]. split; [apply Hwalk|]. split.
  - eexists. split; [|split; [|split; [|split]]].
    + rewrite resolve_unfold by done. rewrite Hmiss, Hwalk.
      rewrite set_path_writable by done. reflexivity.
    + simpl. apply app_nil_r.
    + simpl. unfold set_path. rewrite save_cache_success by done. simpl.
      eexists. split; [reflexivity|]. apply lookup_insert_eq.
    + simpl. unfold set_path. by rewrite save_cache_success by done.
    + intros svc'. rewrite resolve_unfold by done. simpl.
      by rewrite get_set_path.
  - intros svc' w2 cached Hhit. rewrite resolve_unfold by done. by rewrite Hhit.
Qed.

Lemma resolve_slashes_witness :
  ∃ w1,
    resolve ab_service "//" (fresh_world 7) = (Return (mkPathInfo "root" "My Drive" "//"), w1) ∧
    log w1 = [] ∧
    (∃ ps, paths (_cache_data (cache w1)) = Some ps ∧
           ps !! "//" = Some (mkPathEntry "root" "My Drive" 7)).
Proof.
  assert (2 ≤ 2)%nat as H1 by lia.
  assert (get_path (slashes 2) (cache (fresh_world 7)) = Return None) as H2 by reflexivity.
  assert (writable (cache_file (cache (fresh_world 7))) = true) as H3 by reflexivity.
  destruct (resolve_slashes ab_service 2 (fresh_world 7) H1 H2 H3)
    as (_ & _ & (w1 & Hres & Hlog & Hentry & _) & _).
  exists w1. split; [exact Hres|]. split; [exact Hlog | exact Hentry].
Defined.

(** * Sizes in a listing *)

Lemma calculate_folder_sizes_app (svc : service) (pre post : list DriveItem) (w : world) :
  _calculate_folder_sizes svc (pre ++ post) w =
    match _calculate_folder_sizes svc pre w with
    | Some (Return pre', w1) =>
        match _calculate_folder_sizes svc post w1 with
        | Some (Return post', w2) => Some (Return (pre' ++ post'), w2)
        | other => other
        end
    | other => other
    end.
Proof.
  revert w. induction pre as [|item pre IH]; intros w.
  - simpl. by destruct (_calculate_folder_sizes svc post w) as [[[l|e] w1]|].
  - rewrite <- app_comm_cons. cbn [_calculate_folder_sizes].
    assert (∀ item' w1,
      match _calculate_folder_sizes svc (pre ++ post) w1 with
      | Some (Return rest', w'') => Some (Return (item' :: rest'), w'')
      | other => other
      end =
      match
        match _calculate_folder_sizes svc pre w1 with
        | Some (Return rest', w'') => Some (Return (item' :: rest'), w'')
        | other => other
        end
      with
      | Some (Return pre', w2) =>
          match _calculate_folder_sizes svc post w2 with
          | Some (Return post', w3) => Some (Return (pre' ++ post'), w3)
          | other => other
          end
      | other => other
      end) as Hcont.
    { intros item' w1. rewrite IH.
      destruct (_calculate_folder_sizes svc pre w1) as [[[l|e] w2]|]; [|done|done].
      by destruct (_calculate_folder_sizes svc post w2) as [[[l'|e] w3]|]. }
    destruct (is_folder item); [|apply Hcont].
    destruct (di_owned_by_me item); [|apply Hcont].
    destruct (calculate_folder_size svc (di_id item) w) as [[[n|e] w1]|]; [|done|done].
    apply Hcont.
Qed.

Lemma calculate_folder_sizes_length (svc : service) (items annotated : list DriveItem)
    (w w' : world) :
  _calculate_folder_sizes svc items w = Some (Return annotated, w') →
  length annotated = length items.
Proof.
  revert annotated w. induction items as [|item items IH]; intros annotated w.
  - simpl. by intros [= <- _].
  - cbn [_calculate_folder_sizes].
    assert (∀ item' w1,
      match _calculate_folder_sizes svc items w1 with
      | Some (Return rest', w'') => Some (Return (item' :: rest'), w'')
      | other => other
      end = Some (Return annotated, w') → length annotated = length (item :: items))
      as Hcont.
    { intros item' w1.
      destruct (_calculate_folder_sizes svc items w1) as [[[l|e] w2]|] eqn:Hrest;
        [|done|done].
      intros [= <- <-]. simpl. f_equal. by eapply IH. }
    destruct (is_folder item); [|apply Hcont].
    destruct (di_owned_by_me item); [|apply Hcont].
    destruct (calculate_folder_size svc (di_id item) w) as [[[n|e] w1]|]; [|done|done].
    apply Hcont.
Qed.

(** What happens to the entry at one position of the list. *)
Lemma calculate_folder_sizes_at (svc : service) (pre post : list DriveItem)
    (item : DriveItem) (annotated : list DriveItem) (w w' : world) :
  _calculate_folder_sizes svc (pre ++ item :: post) w = Some (Return annotated, w') →
  ∃ pre' item' post' w1 w2,
    annotated = pre' ++ item' :: post' ∧
    length pre' = length pre ∧
    _calculate_folder_sizes svc pre w = Some (Return pre', w1) ∧
    _calculate_folder_sizes svc post w2 = Some (Return post', w') ∧
    (is_folder item = false → item' = item ∧ w2 = w1) ∧
    (is_folder item = true → di_owned_by_me item = false →
       item' = set_calculated_size item 0 ∧ w2 = w1) ∧
    (is_folder item = true → di_owned_by_me item = true →
       ∃ n, calculate_folder_size svc (di_id item) w1 = Some (Return n, w2) ∧
            item' = set_calculated_size item n).
Proof.
  rewrite calculate_folder_sizes_app.
  destruct (_calculate_folder_sizes svc pre w) as [[[pre'|e] w1]|] eqn:Hpre;
    [|done|done].
  destruct (_calculate_folder_sizes svc (item :: post) w1) as [[[rest'|e] w3]|] eqn:Hrest;
    [|done|done].
  intros [= <- <-]. revert Hrest. cbn [_calculate_folder_sizes].
  pose proof (calculate_folder_sizes_length _ _ _ _ _ Hpre) as Hlen.
  destruct (is_folder item) eqn:Hf; [destruct (di_owned_by_me item) eqn:Ho|].
  - destruct (calculate_folder_size svc (di_id item) w1) as [[[n|e] w2]|] eqn:Hc;
      [|done|done].
    destruct (_calculate_folder_sizes svc post w2) as [[[post'|e] w4]|] eqn:Hpost;
      [|done|done].
    intros [= <- <-].
    exists pre', (set_calculated_size item n), post', w1, w2.
    repeat split; try done. intros _ _. by exists n.
  - destruct (_calculate_folder_sizes svc post w1) as [[[post'|e] w4]|] eqn:Hpost;
      [|done|done].
    intros [= <- <-].
    exists pre', (set_calculated_size item 0), post', w1, w1.
    repeat split; done.
  - destruct (_calculate_folder_sizes svc post w1) as [[[post'|e] w4]|] eqn:Hpost;
      [|done|done].
    intros [= <- <-].
    exists pre', item, post', w1, w1.
    repeat split; done.
Qed.

(** C6.  With [show_size], [list_files] hands to the sort the list it has
    fetched (and filtered, with [owned_only]) after the loop of
    [_calculate_folder_sizes] has gone through it.  At every position of
    that list: a folder owned by the caller gets the result of
    [calculate_folder_size] on its identifier, run in the world the loop
    has reached; a folder not owned by the caller gets 0 and the world goes
    on unchanged, so no request is sent and nothing is cached for it; any
    other entry is left as it is. *)
Theorem list_files_folder_sizes (_sort_items : list DriveItem → ListOptions → list DriveItem)
    (svc : service) (folder_id : string) (options : ListOptions)
    (w w' : world) (out : list DriveItem) :
  show_size options = true →
  list_files _sort_items svc folder_id options w = Some (Return out, w') →
  ∃ fetched rqs annotated,
    _fetch_items svc folder_id options = (Return fetched, rqs) ∧
    let items :=
      if owned_only options
      then filter (λ item, di_owned_by_me item = true) fetched else fetched in
    _calculate_folder_sizes svc items (with_requests w rqs) = Some (Return annotated, w') ∧
    out = _sort_items annotated options ∧
    ∀ pre item post, items = pre ++ item :: post →
      ∃ pre' item' post' w1 w2,
        annotated = pre' ++ item' :: post' ∧
        length pre' = length pre ∧
        _calculate_folder_sizes svc pre (with_requests w rqs) = Some (Return pre', w1) ∧
        _calculate_folder_sizes svc post w2 = Some (Return post', w') ∧
        (is_folder item = false → item' = item ∧ w2 = w1) ∧
        (is_folder item = true → di_owned_by_me item = false →
           item' = set_calculated_size item 0 ∧ w2 = w1) ∧
        (is_folder item = true → di_owned_by_me item = true →
           ∃ n, calculate_folder_size svc (di_id item) w1 = Some (Return n, w2) ∧
                item' = set_calculated_size item n).
Proof.
  intros Hshow. unfold list_files. case_decide; [done|].
  destruct (_fetch_items svc folder_id options) as [[fetched|e] rqs]; [|done].
  rewrite Hshow.
  destruct (_calculate_folder_sizes svc _ (with_requests w rqs))
    as [[[annotated|e] w1]|] eqn:Hcalc; [|done|done].
  intros [= <- <-].
  exists fetched, rqs, annotated. split; [done|]. simpl.
  split; [exact Hcalc|]. split; [done|].
  intros pre item post Hsplit. rewrite Hsplit in Hcalc.
  by apply calculate_folder_sizes_at.
Qed.

Lemma list_files_folder_sizes_witness :
  list_files keep_order shared_drive "top" size_options (fresh_world 0)
    = Some (Return shared_listing, shared_world) ∧
  ∃ fetched rqs annotated,
    _fetch_items shared_drive "top" size_options = (Return fetched, rqs) ∧
    _calculate_folder_sizes shared_drive fetched (with_requests (fresh_world 0) rqs)
      = Some (Return annotated, shared_world) ∧
    shared_listing = keep_order annotated size_options.
Proof.
  assert (show_size size_options = true) as H1 by reflexivity.
  assert (list_files keep_order shared_drive "top" size_options (fresh_world 0)
            = Some (Return shared_listing, shared_world)) as H2
    by (vm_compute; reflexivity).
  split; [exact H2|].
  destruct (list_files_folder_sizes keep_order shared_drive "top" size_options
              (fresh_world 0) shared_world shared_listing H1 H2)
    as (fetched & rqs & annotated & Hfetch & Hcalc & Hout & _).
  exists fetched, rqs, annotated.
  split; [exact Hfetch|]. split; [exact Hcalc | exact Hout].
Defined.

(** * Further properties of the cache *)

Lemma size_key_inj (a b : string) : size_key a = size_key b → a = b.
Proof. unfold size_key. intros H. by injection H. Qed.

Lemma DriveCache_eta (c : DriveCache) :
  c = mkDriveCache (_cache_data c) (cache_file c).
Proof. by destruct c. Qed.

Lemma get_path_set_path_other (now : Z) (p q : string) (path_info : PathInfo)
    (c : DriveCache) :
  q ≠ p → get_path q (set_path now p path_info c).2 = get_path q c.
Proof.
  intros Hq. assert (p ≠ q) as Hpq by congruence.
  unfold set_path, _save_cache, get_path. simpl.
  destruct (writable (cache_file c)); simpl;
    rewrite lookup_insert_ne by done;
    destruct (paths (_cache_data c)) as [ps|]; simpl;
    rewrite ?lookup_empty; done.
Qed.

Lemma get_folder_size_set_path (now now' : Z) (p folder_id : string)
    (path_info : PathInfo) (c : DriveCache) :
  get_folder_size now' folder_id (set_path now p path_info c).2
    = get_folder_size now' folder_id c.
Proof.
  unfold set_path, _save_cache, get_folder_size.
  simpl. destruct (writable (cache_file c)); reflexivity.
Qed.

Lemma get_folder_size_set_other (now now' : Z) (id id' : string) (n : Z)
    (c : DriveCache) :
  id' ≠ id →
  get_folder_size now' id' (set_folder_size now id n c).2
    = get_folder_size now' id' c.
Proof.
  intros Hid.
  assert (size_key id ≠ size_key id') as Hkey
    by (intros Hk; apply size_key_inj in Hk; congruence).
  unfold set_folder_size, _save_cache, get_folder_size. simpl.
  destruct (writable (cache_file c)); simpl;
    rewrite lookup_insert_ne by done;
    destruct (folder_sizes (_cache_data c)) as [fs|]; simpl;
    rewrite ?lookup_empty; done.
Qed.

Lemma get_path_set_folder_size (now : Z) (id p : string) (n : Z) (c : DriveCache) :
  get_path p (set_folder_size now id n c).2 = get_path p c.
Proof.
  unfold set_folder_size, _save_cache, get_path.
  simpl. destruct (writable (cache_file c)); reflexivity.
Qed.

(** Reading a path after [set_path]: the path just written gives the new
    entry, every other path gives what it gave before, and the sizes are
    not touched.  This holds whether or not the file could be written. *)
Theorem get_path_after_set_path (now : Z) (p q : string) (path_info : PathInfo)
    (c : DriveCache) :
  pi_id path_info ≠ "" → pi_name path_info ≠ "" →
  get_path q (set_path now p path_info c).2 =
    (if decide (q = p)
     then Return (Some (mkPathInfo (pi_id path_info) (pi_name path_info) p))
     else get_path q c) ∧
  (∀ now' folder_id,
     get_folder_size now' folder_id (set_path now p path_info c).2
       = get_folder_size now' folder_id c).
Proof.
  intros Hid Hname. split.
  - case_decide as Hq.
    + subst q. by apply get_set_path.
    + by apply get_path_set_path_other.
  - intros now' folder_id. apply get_folder_size_set_path.
Qed.

Lemma get_path_after_set_path_witness :
  get_path "/A" (set_path 5 "/A" (mkPathInfo "a1" "A" "/A") fresh_cache).2
    = Return (Some (mkPathInfo "a1" "A" "/A")) ∧
  get_path "/A/" (set_path 5 "/A" (mkPathInfo "a1" "A" "/A") fresh_cache).2
    = Return None.
Proof.
  assert (pi_id (mkPathInfo "a1" "A" "/A") ≠ "") as H1 by discriminate.
  assert (pi_name (mkPathInfo "a1" "A" "/A") ≠ "") as H2 by discriminate.
  split.
  - exact (proj1 (get_path_after_set_path 5 "/A" "/A" _ fresh_cache H1 H2)).
  - exact (proj1 (get_path_after_set_path 5 "/A" "/A/" _ fresh_cache H1 H2)).
Defined.

(** Reading a size after [set_folder_size]: the folder just written gives
    the new size until its age exceeds the TTL, every other folder gives
    what it gave before (two identifiers never share a key), and the paths
    are not touched. *)
Theorem get_folder_size_after_set (now now' : Z) (id id' : string) (n : Z)
    (c : DriveCache) :
  get_folder_size now' id' (set_folder_size now id n c).2 =
    (if decide (id' = id)
     then (if now' - now >? CACHE_TTL_SECONDS then None else Some n)
     else get_folder_size now' id' c) ∧
  (∀ p, get_path p (set_folder_size now id n c).2 = get_path p c).
Proof.
  split.
  - case_decide as Hid.
    + subst id'. apply get_set_folder_size.
    + by apply get_folder_size_set_other.
  - intros p. apply get_path_set_folder_size.
Qed.

(** The cache keeps both namespaces through every operation, and after a
    write that succeeded the file holds exactly what is in memory:
    building a cache from that file gives the same cache again. *)
Theorem write_through (now : Z) (key : string) (path_info : PathInfo) (n : Z)
    (c : DriveCache) :
  has_namespaces c →
  let reloads (r : result unit * DriveCache) :=
    has_namespaces r.2 ∧
    (writable (cache_file c) = true →
       r.1 = Return tt ∧ DriveCache_new (cache_file r.2) = Return r.2) in
  reloads (set_path now key path_info c) ∧
  reloads (set_folder_size now key n c) ∧
  reloads (clear c).
Proof.
  intros [[ps Hps] [fs Hfs]]. simpl.
  unfold set_path, set_folder_size, clear, _save_cache, has_namespaces.
  rewrite Hps, Hfs. simpl.
  destruct (writable (cache_file c)); simpl;
    repeat split; eauto; done.
Qed.

Lemma write_through_witness :
  DriveCache_new (cache_file (set_folder_size 7 "m" 5 fresh_cache).2)
    = Return (set_folder_size 7 "m" 5 fresh_cache).2.
Proof.
  assert (has_namespaces fresh_cache) as H1 by (split; eexists; reflexivity).
  destruct (write_through 7 "m" (mkPathInfo "a1" "A" "/A") 5 fresh_cache H1)
    as (_ & [_ Hsize] & _).
  exact (proj2 (Hsize eq_refl)).
Defined.

Lemma after_failed_write_cases (f : store) :
  match failure f with
  | OpenFails => after_failed_write f = f
  | DumpFails =>
      content (after_failed_write f) = Garbled ∧
      DriveCache_new (after_failed_write f)
        = Return (mkDriveCache empty_cache_data (after_failed_write f))
  end.
Proof.
  unfold after_failed_write. destruct (failure f) eqn:Hf; [done|].
  split; reflexivity.
Qed.

(** When the write fails, every mutating operation raises
    [DriveCacheError] after it has changed the dictionary in memory, and
    the error does not tell what has become of the file.  If it was the
    [open] that failed, the file is as it was, and a cache built from it
    later does not see the change.  If the failure came behind the [open],
    the file is left with a text that is not JSON, and a cache built from
    it later is empty: what had been persisted before is lost together
    with the change. *)
Theorem failed_write_splits_memory_and_file (now : Z) (key : string)
    (path_info : PathInfo) (n : Z) (c : DriveCache) :
  writable (cache_file c) = false →
  pi_id path_info ≠ "" → pi_name path_info ≠ "" →
  let failed (r : result unit * DriveCache) :=
    (∃ msg, r.1 = Raise (DriveCacheError msg)) ∧
    match failure (cache_file c) with
    | OpenFails => cache_file r.2 = cache_file c
    | DumpFails =>
        content (cache_file r.2) = Garbled ∧
        DriveCache_new (cache_file r.2)
          = Return (mkDriveCache empty_cache_data (cache_file r.2))
    end in
  (failed (set_path now key path_info c) ∧
   get_path key (set_path now key path_info c).2
     = Return (Some (mkPathInfo (pi_id path_info) (pi_name path_info) key))) ∧
  (failed (set_folder_size now key n c) ∧
   get_folder_size now key (set_folder_size now key n c).2 = Some n) ∧
  (failed (clear c) ∧
   _cache_data (clear c).2 = empty_cache_data).
Proof.
  intros Hw Hid Hname failed.
  pose proof (after_failed_write_cases (cache_file c)) as Hfile.
  assert (∀ d, failed (_save_cache (mkDriveCache d (cache_file c)))) as Hfailed.
  { intros d. unfold failed. rewrite save_cache_failure by exact Hw.
    split; [by eexists|]. exact Hfile. }
  split; [|split].
  - split; [apply Hfailed | by apply get_set_path].
  - split; [apply Hfailed|].
    rewrite get_set_folder_size. unfold CACHE_TTL_SECONDS.
    destruct (Z.gtb_spec (now - now) (60 * 60)); [lia|done].
  - split; [apply Hfailed|]. unfold clear. by rewrite save_cache_failure.
Qed.

Lemma failed_write_splits_memory_and_file_witness :
  let b := mkPathInfo "b1" "B" "/B" in
  let saved := (set_path 1 "/B" b fresh_cache).2 in
  let c := mkDriveCache (_cache_data saved)
             (mkStore (content (cache_file saved)) false DumpFails) in
  let r := set_path 3 "/A" (mkPathInfo "a1" "A" "/A") c in
  get_path "/B" saved = Return (Some b) ∧
  DriveCache_new (cache_file saved) = Return saved ∧
  (∃ msg, r.1 = Raise (DriveCacheError msg)) ∧
  get_path "/A" r.2 = Return (Some (mkPathInfo "a1" "A" "/A")) ∧
  get_path "/B" r.2 = Return (Some b) ∧
  content (cache_file r.2) = Garbled ∧
  DriveCache_new (cache_file r.2)
    = Return (mkDriveCache empty_cache_data (cache_file r.2)).
Proof.
  intros b saved c r.
  assert (writable (cache_file c) = false) as H1 by reflexivity.
  assert (pi_id (mkPathInfo "a1" "A" "/A") ≠ "") as H2 by discriminate.
  assert (pi_name (mkPathInfo "a1" "A" "/A") ≠ "") as H3 by discriminate.
  destruct (failed_write_splits_memory_and_file 3 "/A" _ 0 c H1 H2 H3)
    as (((Hraise & Hgarbled & Hload) & Hget) & _).
  split; [vm_compute; reflexivity|]. split; [vm_compute; reflexivity|].
  split; [exact Hraise|]. split; [exact Hget|].
  split; [vm_compute; reflexivity|].
  split; [exact Hgarbled | exact Hload].
Defined.

(** After [clear] on a writable file nothing is cached any more, neither in
    memory nor in the file, and [resolve] walks every path again: it sends
    the requests of the walk whatever the cache held before. *)
Theorem clear_forgets_everything (c : DriveCache) :
  writable (cache_file c) = true →
  (clear c).1 = Return tt ∧
  (∀ path, get_path path (clear c).2 = Return None) ∧
  (∀ now folder_id, get_folder_size now folder_id (clear c).2 = None) ∧
  _load_cache (cache_file (clear c).2) = Return empty_cache_data ∧
  (∀ svc path now rqs0,
     path ≠ "" → path ≠ "/" →
     log (resolve svc path (mkWorld (clear c).2 now rqs0)).2
       = rqs0 ++ (_resolve_path_components svc path).2).
Proof.
  intros Hw. unfold clear. rewrite save_cache_success by done. simpl.
  split; [done|]. split; [done|]. split; [done|]. split; [done|].
  intros svc path now rqs0 H1 H2.
  rewrite resolve_unfold by done. simpl.
  by destruct (_resolve_path_components svc path) as [[path_info|e] rqs].
Qed.

Lemma clear_forgets_everything_witness :
  let c := (set_path 3 "/A" (mkPathInfo "stale" "A" "/A") fresh_cache).2 in
  get_path "/A" c = Return (Some (mkPathInfo "stale" "A" "/A")) ∧
  get_path "/A" (clear c).2 = Return None ∧
  log (resolve ab_service "/A" (mkWorld (clear c).2 9 [])).2
    = [mkRequest (QFolderNamed "root" "A") 0].
Proof.
  intros c.
  assert (writable (cache_file c) = true) as H1 by reflexivity.
  assert ("/A" ≠ "") as H2 by discriminate.
  assert ("/A" ≠ "/") as H3 by discriminate.
  destruct (clear_forgets_everything c H1) as (_ & Hpath & _ & _ & Hwalk).
  split; [reflexivity|]. split; [exact (Hpath "/A")|].
  exact (Hwalk ab_service "/A" 9 [] H2 H3).
Defined.

(** * Further properties of path resolution *)

Lemma split_cons (s : string) : ∃ h t, split s = h :: t.
Proof.
  induction s as [|c s (h & t & IH)]; simpl; [by eauto|].
  destruct (is_slash c); [by eauto|]. rewrite IH. by eauto.
Qed.

Lemma split_slash_app (a b : string) :
  split (a +:+ String "/" b) = split a ++ split b.
Proof.
  induction a as [|c a IH]; simpl; [done|].
  destruct (is_slash c); simpl; [by rewrite IH|].
  rewrite IH. by destruct (split_cons a) as (h & t & ->).
Qed.

Lemma split_no_slash (p : string) : has_slash p = false → split p = [p].
Proof.
  induction p as [|c p IH]; simpl; [done|].
  intros [Hc Hp]%orb_false_elim. rewrite Hc, IH; done.
Qed.

Lemma split_pieces (s piece : string) :
  piece ∈ split s → has_slash piece = false.
Proof.
  revert piece. induction s as [|c s IH]; simpl; intros piece.
  - by intros ->%list_elem_of_singleton.
  - destruct (is_slash c) eqn:Hc.
    + intros [->|Hin]%elem_of_cons; [done | by apply IH].
    + destruct (split_cons s) as (h & t & Hs). rewrite Hs in *.
      intros [->|Hin]%elem_of_cons.
      * simpl. rewrite Hc. apply IH. by left.
      * apply IH. by right.
Qed.

(** Stripping only removes pieces that the filter removes anyway. *)
Lemma split_lstrip (s : string) :
  filter (λ p, p ≠ "") (split (lstrip s)) = filter (λ p, p ≠ "") (split s).
Proof.
  induction s as [|c s IH]; simpl; [done|].
  destruct (is_slash c) eqn:Hc; [|by simpl; rewrite Hc].
  rewrite filter_cons_False by (by intros []). exact IH.
Qed.

Lemma split_rstrip (s : string) :
  ∃ k, split s = split (rstrip s) ++ replicate k "".
Proof.
  induction s as [|c s [k IH]]; [by exists 0%nat|].
  destruct (split_cons (rstrip s)) as (h & t & Hsp).
  cbn [split rstrip]. rewrite IH, Hsp.
  destruct (rstrip s) as [|c' r] eqn:Hr.
  - injection Hsp as <- <-.
    destruct (is_slash c) eqn:Hc.
    + by exists (S k).
    + exists k. cbn [split]. by rewrite Hc.
  - change (split (String c (String c' r)))
      with (if is_slash c then EmptyString :: split (String c' r)
            else match split (String c' r) with
                 | h :: t => String c h :: t
                 | [] => [String c EmptyString]
                 end).
    rewrite Hsp.
    destruct (is_slash c); by exists k.
Qed.

Lemma filter_replicate_empty (k : nat) :
  filter (λ p : string, p ≠ "") (replicate k "") = [].
Proof.
  induction k as [|k IH]; simpl; [done|].
  by rewrite filter_cons_False by (by intros []).
Qed.

Lemma path_parts_split (s : string) :
  path_parts s = filter (λ p, p ≠ "") (split s).
Proof.
  unfold path_parts, strip.
  destruct (split_rstrip (lstrip s)) as [k Hk].
  rewrite <- (split_lstrip s), Hk, filter_app, filter_replicate_empty.
  by rewrite app_nil_r.
Qed.

(** What [_resolve_path_components] walks along are segments: no part is
    empty and no part contains a slash. *)
Theorem path_parts_are_segments (path part : string) :
  part ∈ path_parts path → segment part.
Proof.
  rewrite path_parts_split. intros [Hne Hin]%list_elem_of_filter.
  split; [done|]. by eapply split_pieces.
Qed.

Lemma path_parts_are_segments_witness : segment "B".
Proof.
  assert ("B" ∈ path_parts "//A/B/") as H by (vm_compute; by right; left).
  exact (path_parts_are_segments "//A/B/" "B" H).
Defined.

Lemma path_parts_slash (a b : string) :
  path_parts (a +:+ String "/" b) = path_parts a ++ path_parts b.
Proof. by rewrite !path_parts_split, split_slash_app, filter_app. Qed.

Lemma path_parts_segment (p : string) : segment p → path_parts p = [p].
Proof.
  intros [Hne Hslash]. rewrite path_parts_split, split_no_slash by done.
  by rewrite filter_cons_True, filter_nil by done.
Qed.

Lemma path_parts_leading_slash (b : string) :
  path_parts (String "/" b) = path_parts b.
Proof. exact (path_parts_slash "" b). Qed.

Lemma append_empty_r (p : string) : p +:+ "" = p.
Proof.
  induction p as [|c p IH]; [done|].
  change (String c p +:+ "") with (String c (p +:+ "")). by rewrite IH.
Qed.

Lemma path_parts_join (parts : list string) :
  Forall segment parts → path_parts (join_path parts) = parts.
Proof.
  induction 1 as [|p parts Hp _ IH]; [done|].
  change (join_path (p :: parts)) with (String "/" (p +:+ join_path parts)).
  rewrite path_parts_leading_slash.
  destruct parts as [|p' parts'].
  - change (join_path []) with "". rewrite append_empty_r.
    by apply path_parts_segment.
  - change (join_path (p' :: parts'))
      with (String "/" (p' +:+ join_path parts')) in *.
    rewrite path_parts_leading_slash in IH.
    rewrite path_parts_slash, IH. by rewrite path_parts_segment.
Qed.

(** Splitting undoes joining: the path ["/p1/p2/..."] built from segments
    is split into exactly these segments, and a slash put in front of a
    path, behind it, or doubled inside it changes nothing: the parts of
    [a/b] are the parts of [a] followed by the parts of [b]. *)
Theorem path_parts_round_trip (parts : list string) (a b : string) :
  Forall segment parts →
  path_parts (join_path parts) = parts ∧
  path_parts (join_path parts +:+ "/") = parts ∧
  path_parts ("/" +:+ join_path parts) = parts ∧
  path_parts (a +:+ "/" +:+ b) = path_parts a ++ path_parts b ∧
  path_parts (a +:+ "//" +:+ b) = path_parts (a +:+ "/" +:+ b).
Proof.
  intros Hparts. pose proof (path_parts_join parts Hparts) as Hjoin.
  split; [done|]. split; [|split; [|split]].
  - rewrite (path_parts_slash (join_path parts) ""), Hjoin. apply app_nil_r.
  - change ("/" +:+ join_path parts) with (String "/" (join_path parts)).
    by rewrite path_parts_leading_slash.
  - exact (path_parts_slash a b).
  - change (a +:+ "//" +:+ b) with (a +:+ String "/" (String "/" b)).
    change (a +:+ "/" +:+ b) with (a +:+ String "/" b).
    by rewrite !path_parts_slash, path_parts_leading_slash.
Qed.

Lemma path_parts_round_trip_witness :
  path_parts "/Documents/2024" = ["Documents"; "2024"] ∧
  path_parts "/Documents/2024/" = ["Documents"; "2024"].
Proof.
  assert (Forall segment ["Documents"; "2024"]) as H
    by (repeat constructor; discriminate).
  destruct (path_parts_round_trip ["Documents"; "2024"] "" "" H)
    as (H1 & H2 & _).
  split; [exact H1 | exact H2].
Defined.

Lemma PathInfo_new_Return (id name path : string) (info : PathInfo) :
  PathInfo_new id name path = Return info →
  id ≠ "" ∧ name ≠ "" ∧ info = mkPathInfo id name path.
Proof.
  unfold PathInfo_new. repeat case_decide; try done. by intros [= <-].
Qed.

Lemma find_folder_cases (svc : service) (parent_id folder_name : string) :
  (∃ i n, _find_folder_in_parent svc parent_id folder_name
            = (Return (i, n), [mkRequest (QFolderNamed parent_id folder_name) 0])) ∨
  (∃ msg, _find_folder_in_parent svc parent_id folder_name
            = (Raise (DrivePathNotFoundError msg),
               [mkRequest (QFolderNamed parent_id folder_name) 0])).
Proof.
  unfold _find_folder_in_parent.
  destruct (folder_named svc parent_id folder_name) as [e|[|it l]|[|it l] rest];
    eauto.
Qed.

(** The lookups of a walk: one for every segment, in the order of the
    segments, up to the segment that fails. *)
Lemma walk_parts_lookups (svc : service) (path : string) (parts : list string)
    (current_id current_name : string) :
  Forall is_lookup (walk_parts svc path parts current_id current_name).2 ∧
  match walk_parts svc path parts current_id current_name with
  | (Return _, rqs) => lookup_name <$> rqs = Some <$> parts
  | (Raise e, rqs) =>
      ∃ pre part post,
        parts = pre ++ part :: post ∧
        lookup_name <$> rqs = Some <$> (pre ++ [part]) ∧
        e = DrivePathNotFoundError (not_found_in_path part path)
  end.
Proof.
  revert current_id current_name.
  induction parts as [|part rest IH]; intros current_id current_name.
  { split; [constructor | reflexivity]. }
  cbn [walk_parts].
  destruct (find_folder_cases svc current_id part) as [(i & n & ->)|(msg & ->)].
  - destruct (IH i n) as [Hall Hnames].
    destruct (walk_parts svc path rest i n) as [[r|e] rqs'];
      cbn [fst snd app] in *.
    + split; [by constructor|]. by rewrite !fmap_cons, Hnames.
    + split; [by constructor|].
      destruct Hnames as (pre & part' & post & -> & Hnames & ->).
      exists (part :: pre), part', post.
      split; [done|]. split; [|done].
      by rewrite <- app_comm_cons, !fmap_cons, Hnames.
  - split; [by repeat constructor|]. by exists [], part, rest.
Qed.

(** A path that is not cached costs one lookup by name for each of its
    segments, sent in the order of the segments, and nothing else; when a
    segment is not found the lookups stop with that segment. *)
Theorem resolve_one_lookup_per_segment (svc : service) (path : string) (w : world) :
  path ≠ "" → path ≠ "/" →
  get_path path (cache w) = Return None →
  ∃ rqs,
    log (resolve svc path w).2 = log w ++ rqs ∧
    (∀ rq, rq ∈ rqs → rq_page rq = 0%nat ∧ listed_folder rq = None) ∧
    ((∀ msg, (resolve svc path w).1 ≠ Raise (DrivePathNotFoundError msg)) →
       lookup_name <$> rqs = Some <$> path_parts path) ∧
    (∀ msg, (resolve svc path w).1 = Raise (DrivePathNotFoundError msg) →
       ∃ pre part post,
         path_parts path = pre ++ part :: post ∧
         lookup_name <$> rqs = Some <$> (pre ++ [part]) ∧
         msg = not_found_in_path part path).
Proof.
  intros H1 H2 Hmiss.
  destruct (walk_parts_lookups svc path (path_parts path) "root" "My Drive")
    as [Hall Hwalk].
  rewrite Forall_forall in Hall.
  rewrite resolve_unfold by done. rewrite Hmiss.
  unfold _resolve_path_components.
  destruct (walk_parts svc path (path_parts path) "root" "My Drive")
    as [[[i n]|e] rqs] eqn:Hw; simpl in Hall.
  - exists rqs.
    destruct (PathInfo_new i n path) as [info|e] eqn:Hinfo; simpl.
    + split; [done|]. split; [done|]. split; [done|].
      intros msg Hraise. exfalso. revert Hraise.
      unfold set_path, _save_cache. simpl.
      by destruct (writable (cache_file (cache w))).
    + split; [done|]. split; [done|]. split; [done|].
      intros msg [= ->]. exfalso. revert Hinfo.
      unfold PathInfo_new. by repeat case_decide.
  - destruct Hwalk as (pre & part & post & Hparts & Hnames & ->).
    exists rqs. simpl. split; [done|]. split; [done|].
    split; [intros Hno; by destruct (Hno _ eq_refl)|].
    intros msg [= <-]. by exists pre, part, post.
Qed.

Lemma resolve_one_lookup_per_segment_witness :
  ∃ rqs,
    log (resolve ab_service "/A/B" (fresh_world 0)).2 = [] ++ rqs ∧
    lookup_name <$> rqs = [Some "A"; Some "B"].
Proof.
  assert ("/A/B" ≠ "") as H1 by discriminate.
  assert ("/A/B" ≠ "/") as H2 by discriminate.
  assert (get_path "/A/B" (cache (fresh_world 0)) = Return None) as H3 by reflexivity.
  destruct (resolve_one_lookup_per_segment ab_service "/A/B" (fresh_world 0) H1 H2 H3)
    as (rqs & Hlog & _ & Hnames & _).
  exists rqs. split; [exact Hlog|].
  apply Hnames. intros msg. vm_compute. discriminate.
Defined.

Lemma walk_parts_without_errors (svc : service) (path : string)
    (parts : list string) (current_id current_name : string) :
  walk_parts (lookups_without_errors svc) path parts current_id current_name
    = walk_parts svc path parts current_id current_name.
Proof.
  revert current_id current_name.
  induction parts as [|part rest IH]; intros current_id current_name; [done|].
  cbn [walk_parts]. unfold _find_folder_in_parent. simpl.
  destruct (folder_named svc current_id part) as [e|[|it l]|[|it l] more];
    simpl; try done; by rewrite IH.
Qed.

(** [resolve] does not tell a lookup that failed from a folder that does
    not exist: with a service that answers "no such folder" wherever [svc]
    fails, it returns or raises the same and leaves the same world.  The
    text of the HTTP error is lost. *)
Theorem resolve_hides_lookup_errors (svc : service) (path : string) (w : world) :
  resolve (lookups_without_errors svc) path w = resolve svc path w.
Proof.
  unfold resolve, _resolve_path_components.
  by rewrite walk_parts_without_errors.
Qed.

(** What [resolve] returns is a valid [PathInfo]: identifier and name are
    not empty, and the path is the one asked for (["/"] for the empty
    string), also when the answer comes from the cache. *)
Theorem resolve_returns_valid_info (svc : service) (path : string) (w w' : world)
    (info : PathInfo) :
  resolve svc path w = (Return info, w') →
  pi_id info ≠ "" ∧ pi_name info ≠ "" ∧
  pi_path info = (if decide (path = "") then "/" else path).
Proof.
  unfold resolve.
  destruct (decide (path = "")) as [->|Hne]; simpl.
  { by intros [= <- _]. }
  case_decide as Hroot.
  { subst path. by intros [= <- _]. }
  unfold get_path.
  destruct (paths (_cache_data (cache w))) as [ps|]; simpl.
  - destruct (ps !! path) as [cached|]; simpl.
    + destruct (PathInfo_new (pe_id cached) (pe_name cached) path) as [pinfo|e] eqn:Hp;
        [|done].
      intros [= <- _]. by apply PathInfo_new_Return in Hp as (? & ? & ->).
    + unfold _resolve_path_components.
      destruct (walk_parts svc path (path_parts path) "root" "My Drive")
        as [[[i n]|e] rqs]; [|done].
      destruct (PathInfo_new i n path) as [pinfo|e] eqn:Hp; [|done]. simpl.
      destruct (set_path _ _ _ _) as [[[]|e] c]; [|done].
      intros [= <- _]. by apply PathInfo_new_Return in Hp as (? & ? & ->).
  - unfold _resolve_path_components.
    destruct (walk_parts svc path (path_parts path) "root" "My Drive")
      as [[[i n]|e] rqs]; [|done].
    destruct (PathInfo_new i n path) as [pinfo|e] eqn:Hp; [|done]. simpl.
    destruct (set_path _ _ _ _) as [[[]|e] c]; [|done].
    intros [= <- _]. by apply PathInfo_new_Return in Hp as (? & ? & ->).
Qed.

Lemma resolve_returns_valid_info_witness :
  pi_id (mkPathInfo "b1" "b1" "/A/B") ≠ "" ∧
  pi_name (mkPathInfo "b1" "b1" "/A/B") ≠ "" ∧
  pi_path (mkPathInfo "b1" "b1" "/A/B") = "/A/B".
Proof.
  assert (resolve ab_service "/A/B" (fresh_world 0)
            = (Return (mkPathInfo "b1" "b1" "/A/B"),
               (resolve ab_service "/A/B" (fresh_world 0)).2)) as H
    by (vm_compute; reflexivity).
  exact (resolve_returns_valid_info ab_service "/A/B" (fresh_world 0) _ _ H).
Defined.

(** [resolve] writes the cache under the very string it was given and
    nowhere else: every other path, also one with the same segments (an
    added slash), and every folder size read as before. *)
Theorem resolve_writes_only_its_path (svc : service) (p q : string) (w : world) :
  q ≠ p →
  get_path q (cache (resolve svc p w).2) = get_path q (cache w) ∧
  (∀ now folder_id,
     get_folder_size now folder_id (cache (resolve svc p w).2)
       = get_folder_size now folder_id (cache w)).
Proof.
  intros Hq. unfold resolve.
  destruct (decide (p = "")) as [->|Hne]; simpl; [done|].
  case_decide; [done|].
  destruct (get_path p (cache w)) as [[cached|]|e]; [done| |done].
  destruct (_resolve_path_components svc p) as [[info|e] rqs]; [|done].
  simpl.
  pose proof (get_path_set_path_other (clock w) p q info (cache w) Hq) as Hpath.
  pose proof (λ now id, get_folder_size_set_path (clock w) now p id info (cache w))
    as Hsize.
  destruct (set_path (clock w) p info (cache w)) as [[[]|e] c]; simpl in *; done.
Qed.

Lemma resolve_writes_only_its_path_witness :
  get_path "/A/" (cache (resolve ab_service "/A" (fresh_world 0)).2) = Return None ∧
  get_path "/A" (cache (resolve ab_service "/A" (fresh_world 0)).2)
    = Return (Some (mkPathInfo "a1" "a1" "/A")).
Proof.
  assert ("/A/" ≠ "/A") as H by discriminate.
  split.
  - exact (proj1 (resolve_writes_only_its_path ab_service "/A" "/A/" (fresh_world 0) H)).
  - vm_compute. reflexivity.
Defined.

(** Once the segments of a path have been found, the path is answered from
    memory for good: whatever the outcome of the write to the file (when it
    fails, this first [resolve] raises [DriveCacheError]), every later
    [resolve] of the same string returns the same [PathInfo] without a
    request and without touching the cache, at any later time and whatever
    the service would answer by then.  Path entries never expire. *)
Theorem resolve_memoizes (svc : service) (path : string) (w : world)
    (info : PathInfo) (rqs : list request) :
  path ≠ "" → path ≠ "/" →
  get_path path (cache w) = Return None →
  _resolve_path_components svc path = (Return info, rqs) →
  (resolve svc path w).1 =
    (if writable (cache_file (cache w)) then Return info
     else Raise (DriveCacheError "Failed to save cache")) ∧
  log (resolve svc path w).2 = log w ++ rqs ∧
  ∀ svc' later rqs',
    resolve svc' path (mkWorld (cache (resolve svc path w).2) later rqs')
      = (Return info, mkWorld (cache (resolve svc path w).2) later rqs').
Proof.
  intros H1 H2 Hmiss Hwalk.
  assert (pi_id info ≠ "" ∧ pi_name info ≠ "" ∧ pi_path info = path)
    as (Hid & Hname & Hpath).
  { revert Hwalk. unfold _resolve_path_components.
    destruct (walk_parts svc path (path_parts path) "root" "My Drive")
      as [[[i n]|e] rqs0]; [|done].
    destruct (PathInfo_new i n path) as [pinfo|e] eqn:Hp; [|done].
    intros [= <- _]. by apply PathInfo_new_Return in Hp as (? & ? & ->). }
  rewrite resolve_unfold by done. rewrite Hmiss, Hwalk. simpl.
  split; [|split; [done|]].
  - unfold set_path, _save_cache. simpl.
    by destruct (writable (cache_file (cache w))).
  - intros svc' later rqs'. rewrite resolve_unfold by done. simpl.
    rewrite get_set_path by done. destruct info; simpl in *. by subst.
Qed.

Lemma resolve_memoizes_witness :
  let w := mkWorld (mkDriveCache empty_cache_data (mkStore Missing false OpenFails)) 0 [] in
  (resolve ab_service "/A/B" w).1 = Raise (DriveCacheError "Failed to save cache") ∧
  ∀ svc' later rqs',
    resolve svc' "/A/B" (mkWorld (cache (resolve ab_service "/A/B" w).2) later rqs')
      = (Return (mkPathInfo "b1" "b1" "/A/B"),
         mkWorld (cache (resolve ab_service "/A/B" w).2) later rqs').
Proof.
  intros w.
  assert ("/A/B" ≠ "") as H1 by discriminate.
  assert ("/A/B" ≠ "/") as H2 by discriminate.
  assert (get_path "/A/B" (cache w) = Return None) as H3 by reflexivity.
  assert (_resolve_path_components ab_service "/A/B"
            = (Return (mkPathInfo "b1" "b1" "/A/B"),
               [mkRequest (QFolderNamed "root" "A") 0;
                mkRequest (QFolderNamed "a1" "B") 0])) as H4
    by (vm_compute; reflexivity).
  destruct (resolve_memoizes ab_service "/A/B" w _ _ H1 H2 H3 H4) as (Hr & _ & Hm).
  split; [exact Hr | exact Hm].
Defined.

(** * Further properties of listing and sizes *)

Lemma convert_to_drive_item_valid (item : api_item) :
  valid_item item → _convert_to_drive_item item = Return (drive_item_of item).
Proof.
  intros [Hid Hname]. unfold _convert_to_drive_item, DriveItem_new.
  by rewrite !decide_False by done.
Qed.

Lemma convert_to_drive_item_invalid (item : api_item) :
  ¬ valid_item item → ∃ msg, _convert_to_drive_item item = Raise (ValueError msg).
Proof.
  intros Hbad. unfold _convert_to_drive_item, DriveItem_new.
  repeat case_decide; eauto. destruct Hbad. by split.
Qed.

Lemma convert_to_drive_items_valid (items : list api_item) :
  Forall valid_item items →
  _convert_to_drive_items items = Return (drive_item_of <$> items).
Proof.
  induction 1 as [|item items Hitem _ IH]; [done|].
  cbn [_convert_to_drive_items].
  by rewrite convert_to_drive_item_valid, IH.
Qed.

Lemma convert_to_drive_items_invalid (items : list api_item) :
  ¬ Forall valid_item items →
  ∃ msg, _convert_to_drive_items items = Raise (ValueError msg).
Proof.
  induction items as [|item items IH]; intros Hbad.
  - destruct Hbad. constructor.
  - cbn [_convert_to_drive_items].
    destruct (decide (valid_item item)) as [Hv|Hv].
    + rewrite convert_to_drive_item_valid by done.
      destruct IH as [msg ->]; [|by eauto].
      intros Hall. apply Hbad. by constructor.
    + destruct (convert_to_drive_item_invalid item Hv) as [msg ->]. eauto.
Qed.

(** The conversion of a reply is all or nothing: when every entry has an
    identifier and a name it gives one [DriveItem] for each entry, in the
    same order, with the defaults for the missing keys and no calculated
    size; a single entry without identifier or name makes the whole
    conversion raise [ValueError]. *)
Theorem convert_to_drive_items_all_or_nothing (items : list api_item) :
  if decide (Forall valid_item items)
  then _convert_to_drive_items items = Return (drive_item_of <$> items)
  else ∃ msg, _convert_to_drive_items items = Raise (ValueError msg).
Proof.
  case_decide.
  - by apply convert_to_drive_items_valid.
  - by apply convert_to_drive_items_invalid.
Qed.

Lemma pages_pos (l : listing) : (1 ≤ pages l)%nat.
Proof. destruct l; simpl; lia. Qed.

Lemma fetch_pages_requests (q : query) (l : listing) (page : nat)
    (acc : list DriveItem) :
  ∃ n, (1 ≤ n ≤ pages l)%nat ∧
       (fetch_pages q l page acc).2 = mkRequest q <$> seq page n ∧
       (∀ items, (fetch_pages q l page acc).1 = Return items → n = pages l).
Proof.
  revert page acc. induction l as [e|files|files rest IH]; intros page acc.
  - exists 1%nat. simpl. split; [lia|]. split; [done|]. done.
  - exists 1%nat. simpl. split; [lia|].
    by destruct (_convert_to_drive_items files).
  - cbn [fetch_pages pages].
    destruct (_convert_to_drive_items files) as [converted|e].
    + destruct (IH (S page) (acc ++ converted)) as (n & Hn & Hrqs & Hret).
      destruct (fetch_pages q rest (S page) (acc ++ converted)) as [r rqs].
      simpl in *. exists (S n). split; [lia|]. split.
      * by rewrite Hrqs.
      * intros items Hitems. f_equal. by eapply Hret.
    + exists 1%nat. simpl. pose proof (pages_pos rest). split; [lia|]. done.
Qed.

Lemma fetch_pages_Return (q : query) (l : listing) (page : nat)
    (acc items : list DriveItem) :
  (fetch_pages q l page acc).1 = Return items ↔
  no_failure l = true ∧ Forall valid_item (all_items l) ∧
  items = acc ++ (drive_item_of <$> all_items l).
Proof.
  revert page acc. induction l as [e|files|files rest IH]; intros page acc.
  - simpl. split; [done | by intros [? _]].
  - simpl. destruct (decide (Forall valid_item files)) as [Hv|Hv].
    + rewrite convert_to_drive_items_valid by done. simpl.
      split; [by intros [= <-] | by intros (_ & _ & ->)].
    + destruct (convert_to_drive_items_invalid files Hv) as [msg ->]. simpl.
      split; [done | by intros (_ & ? & _)].
  - cbn [fetch_pages no_failure all_items].
    destruct (decide (Forall valid_item files)) as [Hv|Hv].
    + rewrite convert_to_drive_items_valid by done.
      specialize (IH (S page) (acc ++ (drive_item_of <$> files))).
      destruct (fetch_pages q rest (S page) (acc ++ (drive_item_of <$> files)))
        as [r rqs]. simpl in *. rewrite IH.
      rewrite Forall_app, fmap_app, app_assoc. tauto.
    + destruct (convert_to_drive_items_invalid files Hv) as [msg ->]. simpl.
      split; [done|]. rewrite Forall_app. by intros (_ & [? _] & _).
Qed.

(** [_fetch_items] asks for the pages of one query in turn, page 0 first:
    the non-trashed children of the folder, or all its children with
    [show_hidden].  It returns a list exactly when no page fails and every
    entry is valid, and the list then holds every entry of every page in
    the order received, after one request for each page.  Otherwise it
    raises, returns nothing of what it had received, and has not asked
    for more pages than there are. *)
Theorem fetch_items_all_pages (svc : service) (folder_id : string)
    (options : ListOptions) :
  let q := if show_hidden options then QAll folder_id else QChildren folder_id in
  let l := files_list svc q in
  (∀ items,
     (_fetch_items svc folder_id options).1 = Return items ↔
     no_failure l = true ∧ Forall valid_item (all_items l) ∧
     items = drive_item_of <$> all_items l) ∧
  (∃ n, (1 ≤ n ≤ pages l)%nat ∧
        (_fetch_items svc folder_id options).2 = page_requests q n ∧
        (∀ items, (_fetch_items svc folder_id options).1 = Return items →
                  n = pages l)) ∧
  (no_failure l = false →
   ∃ e, (_fetch_items svc folder_id options).1 = Raise e).
Proof.
  intros q l. unfold _fetch_items. fold q. fold l. split; [|split].
  - intros items. by rewrite fetch_pages_Return.
  - apply fetch_pages_requests.
  - intros Hfail.
    destruct (fetch_pages q l 0 []).1 as [items|e] eqn:Hr; [|by eauto].
    apply fetch_pages_Return in Hr as (Hok & _). congruence.
Qed.

Lemma add_pages_cut_at_failure (descend : string → option (Z * list request))
    (folder_id : string) (l : listing) (page : nat) (acc : Z * list request) :
  add_pages descend folder_id (cut_at_failure l) page acc
    = add_pages descend folder_id l page acc.
Proof.
  revert page acc. induction l as [e|files|files rest IH]; intros page acc; simpl.
  - done.
  - done.
  - destruct (add_items descend files _); [apply IH | done].
Qed.

Lemma add_items_ext (descend descend' : string → option (Z * list request))
    (items : list api_item) (acc : Z * list request) :
  (∀ c, descend c = descend' c) →
  add_items descend items acc = add_items descend' items acc.
Proof.
  intros Hext. revert acc. induction items as [|item items IH]; intros acc; [done|].
  simpl. unfold add_item. rewrite Hext.
  destruct (item_size item); [apply IH|].
  case_decide; [|apply IH].
  destruct (descend' (item_id item)) as [[n rqs]|]; [apply IH | done].
Qed.

Lemma add_pages_ext (descend descend' : string → option (Z * list request))
    (folder_id : string) (l : listing) (page : nat) (acc : Z * list request) :
  (∀ c, descend c = descend' c) →
  add_pages descend folder_id l page acc = add_pages descend' folder_id l page acc.
Proof.
  intros Hext. revert page acc.
  induction l as [e|files|files rest IH]; intros page acc; simpl.
  - done.
  - by apply add_items_ext.
  - rewrite (add_items_ext descend descend') by done.
    destruct (add_items descend' files _); [apply IH | done].
Qed.

Lemma recursive_folder_size_cut_at_failure (svc : service) (fuel : nat)
    (folder_id : string) (visited : gset string) :
  _recursive_folder_size fuel (children_cut_at_failure svc) folder_id visited
    = _recursive_folder_size fuel svc folder_id visited.
Proof.
  revert folder_id visited. induction fuel as [|fuel IH]; intros folder_id visited;
    [done|].
  simpl. case_decide; [done|].
  assert (children_of (children_cut_at_failure svc) folder_id
            = cut_at_failure (children_of svc folder_id)) as ->.
  { unfold children_of, children_cut_at_failure. simpl. rewrite lookup_fmap.
    by destruct (children svc !! folder_id). }
  rewrite add_pages_cut_at_failure. apply add_pages_ext. intros c. apply IH.
Qed.

(** A page that fails during the size traversal is taken for the end of
    the listing: the traversal, and with it [calculate_folder_size], returns
    the same total, sends the same requests and caches the same entry as
    on a service whose listings simply end where [svc] fails.  Nothing
    tells the partial total from a complete one. *)
Theorem size_traversal_takes_failure_for_end (svc : service) (folder_id : string)
    (w : world) :
  (∀ fuel visited,
     _recursive_folder_size fuel (children_cut_at_failure svc) folder_id visited
       = _recursive_folder_size fuel svc folder_id visited) ∧
  calculate_folder_size (children_cut_at_failure svc) folder_id w
    = calculate_folder_size svc folder_id w.
Proof.
  split; [intros fuel visited; apply recursive_folder_size_cut_at_failure|].
  unfold calculate_folder_size.
  assert (traversal_fuel (children_cut_at_failure svc) = traversal_fuel svc) as ->.
  { unfold traversal_fuel, children_cut_at_failure. simpl.
    by rewrite map_size_fmap. }
  by rewrite recursive_folder_size_cut_at_failure.
Qed.

(** [calculate_folder_size] traverses a folder at most once per hour: after
    a call that had to traverse (whether or not the result could be written
    to the file; if not, that call raises [DriveCacheError]), every call
    made while the entry is not older than the TTL returns the same total
    without a request and without a write, whatever has changed on the
    service. *)
Theorem calculate_folder_size_memoizes (svc : service) (folder_id : string)
    (w : world) :
  folder_id ≠ "" →
  get_folder_size (clock w) folder_id (cache w) = None →
  ∃ total rqs r w1,
    _recursive_folder_size (traversal_fuel svc) svc folder_id ∅ = Some (total, rqs) ∧
    calculate_folder_size svc folder_id w = Some (r, w1) ∧
    r = (if writable (cache_file (cache w)) then Return total
         else Raise (DriveCacheError "Failed to save cache")) ∧
    log w1 = log w ++ rqs ∧
    ∀ svc' later rqs',
      (later - clock w ≤ CACHE_TTL_SECONDS)%Z →
      calculate_folder_size svc' folder_id (mkWorld (cache w1) later rqs')
        = Some (Return total, mkWorld (cache w1) later rqs').
Proof.
  intros Hid Hmiss.
  destruct (traversal_fuel_enough svc folder_id) as [[total rqs] Hr].
  exists total, rqs. eexists _, _. split; [exact Hr|].
  split; [exact (calculate_folder_size_miss _ _ _ _ _ Hid Hmiss Hr)|].
  split; [|split; [done|]].
  - unfold set_folder_size, _save_cache. simpl.
    by destruct (writable (cache_file (cache w))).
  - intros svc' later rqs' Hfresh. unfold calculate_folder_size. simpl.
    rewrite decide_False by done. rewrite get_set_folder_size.
    destruct (Z.gtb_spec (later - clock w) CACHE_TTL_SECONDS); [lia|done].
Qed.

Lemma calculate_folder_size_memoizes_witness :
  ∃ w1,
    calculate_folder_size tree_drive "A" (fresh_world 100) = Some (Return 12, w1) ∧
    ∀ svc', calculate_folder_size svc' "A" (mkWorld (cache w1) 3700 [])
              = Some (Return 12, mkWorld (cache w1) 3700 []).
Proof.
  assert ("A" ≠ "") as H1 by discriminate.
  assert (get_folder_size (clock (fresh_world 100)) "A" (cache (fresh_world 100)) = None)
    as H2 by reflexivity.
  destruct (calculate_folder_size_memoizes tree_drive "A" (fresh_world 100) H1 H2)
    as (total & rqs & r & w1 & Hr & Hcalc & -> & _ & Hmemo).
  assert (total = 12) as ->.
  { assert (_recursive_folder_size (traversal_fuel tree_drive) tree_drive "A" ∅
              = Some (12, [mkRequest (QChildren "A") 0; mkRequest (QChildren "A") 1;
                           mkRequest (QChildren "B") 0])) as Hc
      by (vm_compute; reflexivity).
    rewrite Hc in Hr. by injection Hr as <- _. }
  exists w1. split; [exact Hcalc|].
  intros svc'. apply Hmemo. simpl. unfold CACHE_TTL_SECONDS. lia.
Defined.

(** * The order of a listing *)

Section stable_sort_facts.
Context {A : Type} (before : A → A → bool).

Lemma insert_sorted_Permutation (x : A) (l : list A) :
  Permutation (insert_sorted before x l) (x :: l).
Proof.
  induction l as [|y l IH]; simpl; [done|].
  destruct (before x y); [done|].
  rewrite IH. apply perm_swap.
Qed.

Lemma stable_sort_Permutation (l : list A) :
  Permutation (stable_sort before l) l.
Proof.
  induction l as [|x l IH]; simpl; [done|].
  rewrite insert_sorted_Permutation. by constructor.
Qed.

Lemma insert_sorted_Sorted (x : A) (l : list A) :
  (∀ a b, before a b = true ∨ before b a = true) →
  Sorted (λ a b, before a b = true) l →
  Sorted (λ a b, before a b = true) (insert_sorted before x l).
Proof.
  intros Htotal. induction l as [|y l IH]; simpl; intros Hl.
  - by repeat constructor.
  - destruct (before x y) eqn:Hxy.
    + constructor; [done|]. by constructor.
    + apply Sorted_inv in Hl as [Hl Hhd]. constructor; [by apply IH|].
      assert (before y x = true) as Hyx
        by (destruct (Htotal x y); congruence).
      destruct l as [|z l]; simpl; [by constructor|].
      destruct (before x z); constructor; [done|].
      by apply HdRel_inv in Hhd.
Qed.

Lemma stable_sort_Sorted (l : list A) :
  (∀ a b, before a b = true ∨ before b a = true) →
  Sorted (λ a b, before a b = true) (stable_sort before l).
Proof.
  intros Htotal. induction l as [|x l IH]; simpl; [constructor|].
  by apply insert_sorted_Sorted.
Qed.

Context (P : A → Prop) `{!∀ x, Decision (P x)}.
Hypothesis P_before : ∀ x y, P x → P y → before x y = true.

Lemma insert_sorted_filter (x : A) (l : list A) :
  filter P (insert_sorted before x l) = filter P (x :: l).
Proof.
  induction l as [|y l IH]; simpl; [done|].
  destruct (before x y) eqn:Hxy; [done|].
  rewrite filter_cons, IH, !filter_cons.
  destruct (decide (P y)) as [Hy|Hy], (decide (P x)) as [Hx|Hx]; try done.
  rewrite (P_before x y) in Hxy; done.
Qed.

Lemma stable_sort_filter (l : list A) :
  filter P (stable_sort before l) = filter P l.
Proof.
  induction l as [|x l IH]; simpl; [done|].
  by rewrite insert_sorted_filter, !filter_cons, IH.
Qed.
End stable_sort_facts.

Lemma Sorted_snoc {A : Type} (R : A → A → Prop) (l : list A) (x : A) :
  Sorted R l → (∀ y, last l = Some y → R y x) → Sorted R (l ++ [x]).
Proof.
  induction 1 as [|a l Hl IH Hhd]; intros Hlast; simpl.
  - by repeat constructor.
  - constructor.
    + apply IH. intros y Hy. apply Hlast.
      destruct l; [done|]. by rewrite last_cons_cons.
    + destruct l as [|b l]; simpl.
      * constructor. by apply Hlast.
      * constructor. by apply HdRel_inv in Hhd.
Qed.

Lemma Sorted_reverse {A : Type} (R : A → A → Prop) (l : list A) :
  Sorted R l → Sorted (λ a b, R b a) (reverse l).
Proof.
  induction 1 as [|a l Hl IH Hhd]; [constructor|].
  rewrite reverse_cons. apply Sorted_snoc; [done|].
  intros y. rewrite last_reverse. destruct l as [|b l]; [done|].
  intros [= <-]. by apply HdRel_inv in Hhd.
Qed.

(** Sorting by size: the entries come back all and once, ordered by
    decreasing [display_size], and entries of the same size stay in the
    order in which they were listed.  With [reverse_sort] the list is
    turned over as a whole: increasing sizes, and entries of the same size
    in the opposite of their listed order. *)
Theorem sort_items_by_size (lower : string → string)
    (by_date : list DriveItem → list DriveItem)
    (items : list DriveItem) (options : ListOptions) :
  sort_by options = "size" →
  Permutation (_sort_items lower by_date items options) items ∧
  (reverse_sort options = false →
     Sorted (λ x y, (display_size y ≤ display_size x)%Z)
       (_sort_items lower by_date items options) ∧
     ∀ k, filter (λ x, display_size x = k) (_sort_items lower by_date items options)
            = filter (λ x, display_size x = k) items) ∧
  (reverse_sort options = true →
     Sorted (λ x y, (display_size x ≤ display_size y)%Z)
       (_sort_items lower by_date items options) ∧
     ∀ k, filter (λ x, display_size x = k) (_sort_items lower by_date items options)
            = reverse (filter (λ x, display_size x = k) items)).
Proof.
  intros Hsort. unfold _sort_items. rewrite decide_True by done.
  assert (Sorted (λ x y, (display_size y ≤ display_size x)%Z)
            (stable_sort size_before items)) as Hsorted.
  { eapply Sorted_ind with (P := Sorted _); [constructor| |
      apply (stable_sort_Sorted size_before items)].
    - intros a l _ Hl Hhd. constructor; [done|].
      destruct Hhd as [|b l Hb]; constructor.
      unfold size_before in Hb. lia.
    - intros a b. unfold size_before. lia. }
  assert (∀ k, filter (λ x, display_size x = k) (stable_sort size_before items)
               = filter (λ x, display_size x = k) items) as Hstable.
  { intros k. apply stable_sort_filter.
    intros x y Hx Hy. unfold size_before. lia. }
  split; [|split].
  - destruct (reverse_sort options).
    + rewrite reverse_Permutation. apply stable_sort_Permutation.
    + apply stable_sort_Permutation.
  - by intros ->.
  - intros ->. split.
    + by apply (Sorted_reverse (λ x y, (display_size y ≤ display_size x)%Z)).
    + intros k. by rewrite filter_reverse, Hstable.
Qed.

Lemma sort_items_by_size_witness :
  let small := mkDriveItem "1" "a" "" (Some 5) true false None in
  let big := mkDriveItem "2" "b" "" (Some 100) true false None in
  let tiny := mkDriveItem "3" "c" "" (Some 1) true false None in
  Permutation
    (_sort_items id id [small; big; tiny] (mkListOptions false "size" false false false))
    [small; big; tiny] ∧
  _sort_items id id [small; big; tiny] (mkListOptions false "size" false false false)
    = [big; small; tiny] ∧
  _sort_items id id [small; big; tiny] (mkListOptions false "size" true false false)
    = [tiny; small; big].
Proof.
  intros small big tiny.
  assert (sort_by (mkListOptions false "size" false false false) = "size") as H
    by reflexivity.
  split.
  - exact (proj1 (sort_items_by_size id id [small; big; tiny] _ H)).
  - split; vm_compute; reflexivity.
Defined.

Lemma string_leb_refl (s : string) : String.leb s s = true.
Proof. by destruct (String.leb_total s s). Qed.

Lemma type_before_total (lower : string → string) (x y : DriveItem) :
  type_before lower x y = true ∨ type_before lower y x = true.
Proof.
  unfold type_before. rewrite (String.eqb_sym (di_mime_type y)).
  destruct (String.eqb (di_mime_type x) (di_mime_type y)); apply String.leb_total.
Qed.

(** Sorting by name (the default) or by type: the entries come back all
    and once.  By name they are ordered by their lower-cased names, and
    entries whose names differ at most in case stay in the order in which
    they were listed.  By type they are ordered by MIME type first and by
    lower-cased name within one type, again keeping the listed order of
    entries that agree on both.  [reverse_sort] turns the whole list
    over. *)
Theorem sort_items_by_name_or_type (lower : string → string)
    (by_date : list DriveItem → list DriveItem)
    (items : list DriveItem) (options : ListOptions) :
  sort_by options ≠ "size" → sort_by options ≠ "date" →
  ∃ sorted,
    _sort_items lower by_date items options
      = (if reverse_sort options then reverse sorted else sorted) ∧
    Permutation sorted items ∧
    Permutation (_sort_items lower by_date items options) items ∧
    (sort_by options = "type" →
       Sorted (λ x y, type_before lower x y = true) sorted ∧
       ∀ m k,
         filter (λ x, di_mime_type x = m ∧ lower (di_name x) = k) sorted
           = filter (λ x, di_mime_type x = m ∧ lower (di_name x) = k) items) ∧
    (sort_by options ≠ "type" →
       Sorted (λ x y, String.leb (lower (di_name x)) (lower (di_name y)) = true)
         sorted ∧
       ∀ k, filter (λ x, lower (di_name x) = k) sorted
              = filter (λ x, lower (di_name x) = k) items).
Proof.
  intros Hsize Hdate. unfold _sort_items.
  rewrite (decide_False (P := sort_by options = "size")) by done.
  rewrite (decide_False (P := sort_by options = "date")) by done.
  destruct (decide (sort_by options = "type")) as [Htype|Htype].
  - exists (stable_sort (type_before lower) items).
    split; [done|]. split; [apply stable_sort_Permutation|]. split.
    { destruct (reverse_sort options);
        rewrite ?reverse_Permutation; apply stable_sort_Permutation. }
    split; [|done]. intros _. split.
    + apply stable_sort_Sorted, type_before_total.
    + intros m k. apply stable_sort_filter.
      intros x y [Hx1 Hx2] [Hy1 Hy2]. unfold type_before.
      rewrite Hx1, Hy1, Hx2, Hy2, String.eqb_refl. apply string_leb_refl.
  - exists (stable_sort (name_before lower) items).
    split; [done|]. split; [apply stable_sort_Permutation|]. split.
    { destruct (reverse_sort options);
        rewrite ?reverse_Permutation; apply stable_sort_Permutation. }
    split; [done|]. intros _. split.
    + apply (stable_sort_Sorted (name_before lower)).
      intros a b. apply String.leb_total.
    + intros k. apply stable_sort_filter.
      intros x y Hx Hy. unfold name_before. rewrite Hx, Hy.
      apply string_leb_refl.
Qed.

Lemma sort_items_by_name_or_type_witness :
  let b := mkDriveItem "1" "b.txt" "text/plain" None true false None in
  let a := mkDriveItem "2" "a.txt" "text/plain" None true false None in
  let d := mkDriveItem "3" "docs" FOLDER_MIME None true false None in
  _sort_items id id [b; a; d] (mkListOptions false "name" false false false)
    = [a; b; d] ∧
  _sort_items id id [b; a; d] (mkListOptions false "type" false false false)
    = [d; a; b] ∧
  Permutation
    (_sort_items id id [b; a; d] (mkListOptions false "name" true false false))
    [b; a; d].
Proof.
  intros b a d.
  assert (sort_by (mkListOptions false "name" true false false) ≠ "size") as H1
    by discriminate.
  assert (sort_by (mkListOptions false "name" true false false) ≠ "date") as H2
    by discriminate.
  destruct (sort_items_by_name_or_type id id [b; a; d] _ H1 H2)
    as (sorted & _ & _ & Hperm & _).
  split; [vm_compute; reflexivity|]. split; [vm_compute; reflexivity|].
  exact Hperm.
Defined.

(** * A whole listing *)

Lemma sort_items_Permutation (lower : string → string)
    (by_date : list DriveItem → list DriveItem)
    (items : list DriveItem) (options : ListOptions) :
  sort_by options ≠ "date" →
  Permutation (_sort_items lower by_date items options) items.
Proof.
  intros Hdate. unfold _sort_items.
  rewrite (decide_False (P := sort_by options = "date")) by done.
  destruct (reverse_sort options); rewrite ?reverse_Permutation;
    repeat case_decide; apply stable_sort_Permutation.
Qed.


(** The loop changes nothing but the calculated sizes. *)
Lemma calculate_folder_sizes_keeps_items (svc : service)
    (items annotated : list DriveItem) (w w' : world) :
  _calculate_folder_sizes svc items w = Some (Return annotated, w') →
  without_calculated_size <$> annotated = without_calculated_size <$> items.
Proof.
  revert annotated w. induction items as [|item items IH]; intros annotated w.
  - simpl. by intros [= <- _].
  - cbn [_calculate_folder_sizes].
    assert (∀ item' w1,
      without_calculated_size item' = without_calculated_size item →
      match _calculate_folder_sizes svc items w1 with
      | Some (Return rest', w'') => Some (Return (item' :: rest'), w'')
      | other => other
      end = Some (Return annotated, w') →
      without_calculated_size <$> annotated
        = without_calculated_size <$> item :: items) as Hcont.
    { intros item' w1 Hsame.
      destruct (_calculate_folder_sizes svc items w1) as [[[l|e] w2]|] eqn:Hrest;
        [|done|done].
      intros [= <- <-]. rewrite !fmap_cons, Hsame. f_equal. by eapply IH. }
    destruct (is_folder item); [|by apply Hcont].
    destruct (di_owned_by_me item); [|by apply Hcont].
    destruct (calculate_folder_size svc (di_id item) w) as [[[n|e] w1]|];
      [|done|done].
    by apply Hcont.
Qed.



Lemma fetch_items_ids (svc : service) (folder_id : string)
    (options : ListOptions) (items : list DriveItem) :
  (_fetch_items svc folder_id options).1 = Return items →
  Forall (λ item, di_id item ≠ "" ∧ di_name item ≠ "") items.
Proof.
  unfold _fetch_items. intros (_ & Hvalid & ->)%fetch_pages_Return. simpl.
  apply Forall_fmap. eapply Forall_impl; [exact Hvalid|]. by intros item [? ?].
Qed.

(** What [list_files] returns is the listing of the folder, every entry
    once (only the entries of the caller with [owned_only]), changed in
    nothing but the calculated sizes; without [show_size] these are all
    unset, the cache is as before and only the pages of the folder itself
    have been requested.  An entry always has an identifier and a name. *)
Theorem list_files_returns_the_listing (lower : string → string)
    (by_date : list DriveItem → list DriveItem) (svc : service)
    (folder_id : string) (options : ListOptions) (w w' : world)
    (out : list DriveItem) :
  sort_by options ≠ "date" →
  list_files (_sort_items lower by_date) svc folder_id options w
    = Some (Return out, w') →
  let q := if show_hidden options then QAll folder_id else QChildren folder_id in
  let listed := drive_item_of <$> all_items (files_list svc q) in
  Permutation (without_calculated_size <$> out)
    (if owned_only options
     then filter (λ item, di_owned_by_me item = true) listed else listed) ∧
  Forall (λ item, di_id item ≠ "" ∧ di_name item ≠ "") out ∧
  (owned_only options = true → Forall (λ item, di_owned_by_me item = true) out) ∧
  (show_size options = false →
     Forall (λ item, di_calculated_size item = None) out ∧
     cache w' = cache w ∧
     log w' = log w ++ page_requests q (pages (files_list svc q))).
Proof.
  intros Hdate Hres q listed. revert Hres.
  unfold list_files. case_decide; [done|].
  destruct (_fetch_items svc folder_id options) as [[fetched|e] rqs] eqn:Hfetch;
    [|done].
  assert ((_fetch_items svc folder_id options).1 = Return fetched) as Hret
    by (by rewrite Hfetch).
  pose proof (fetch_items_ids _ _ _ _ Hret) as Hids.
  assert (fetched = listed ∧ rqs = page_requests q (pages (files_list svc q)))
    as [Hlisted ->].
  { revert Hfetch Hret. unfold _fetch_items. fold q. intros Hfetch Hret.
    destruct (fetch_pages_requests q (files_list svc q) 0 []) as (n & _ & Hrqs & Hn).
    rewrite (Hn _ Hret) in Hrqs. rewrite Hfetch in Hrqs.
    apply fetch_pages_Return in Hret as (_ & _ & ->). done. }
  set (items := if owned_only options
                then filter (λ item, di_owned_by_me item = true) fetched
                else fetched).
  assert (Forall (λ item, di_id item ≠ "" ∧ di_name item ≠ "") items) as Hids'.
  { subst items. destruct (owned_only options); [|done].
    apply Forall_forall. intros item [_ Hin]%list_elem_of_filter.
    by eapply Forall_forall in Hids. }
  assert (owned_only options = true →
          Forall (λ item, di_owned_by_me item = true) items) as Hown.
  { subst items. intros ->. apply Forall_forall.
    by intros item [? _]%list_elem_of_filter. }
  assert (without_calculated_size <$> items = items) as Hplain.
  { subst items fetched listed. destruct (owned_only options).
    - apply list_eq. intros k. rewrite list_lookup_fmap.
      destruct (filter _ _ !! k) as [item|] eqn:Hk; [|done]. simpl. f_equal.
      apply list_elem_of_lookup_2, list_elem_of_filter in Hk as [_ Hin].
      by apply list_elem_of_fmap in Hin as (x & -> & _).
    - rewrite <- list_fmap_compose. by apply list_fmap_ext. }
  intros Hres.
  assert (∃ annotated,
            out = _sort_items lower by_date annotated options ∧
            without_calculated_size <$> annotated = items ∧
            (show_size options = false →
               annotated = items ∧ w' = with_requests w
                 (page_requests q (pages (files_list svc q))))) as
    (annotated & -> & Hsame & Hnosize).
  { revert Hres. fold items. destruct (show_size options).
    - destruct (_calculate_folder_sizes svc items _) as [[[annotated|e] w1]|] eqn:Hc;
        [|done|done].
      intros [= <- <-]. exists annotated. split; [done|]. split; [|done].
      apply calculate_folder_sizes_keeps_items in Hc. by rewrite Hc.
    - intros [= <- <-]. exists items. by repeat split. }
  pose proof (sort_items_Permutation lower by_date annotated options Hdate) as Hperm.
  assert (∀ P : DriveItem → Prop,
            (∀ x, P (without_calculated_size x) → P x) →
            Forall P items → Forall P (_sort_items lower by_date annotated options))
    as Hlift.
  { intros P HP Hall. rewrite Hperm. rewrite <- Hsame in Hall.
    rewrite Forall_fmap in Hall. eapply Forall_impl; [exact Hall|]. done. }
  split; [|split; [|split]].
  - rewrite Hperm, Hsame. subst items fetched. done.
  - by apply Hlift.
  - intros Ho. apply Hlift; [done|]. by apply Hown.
  - intros Hns. destruct (Hnosize Hns) as [-> ->]. split; [|done].
    rewrite Hperm. rewrite <- Hplain. apply Forall_fmap. by apply Forall_true.
Qed.

Lemma list_files_returns_the_listing_witness :
  let options := mkListOptions false "name" false true true in
  let out := [mkDriveItem "m" "mine" FOLDER_MIME None true false (Some 5);
              mkDriveItem "f" "notes.txt" "text/plain" (Some 3) true false None] in
  list_files (_sort_items id id) shared_drive "top" options (fresh_world 0)
    = Some (Return out, shared_world) ∧
  Forall (λ item, di_owned_by_me item = true) out.
Proof.
  intros options out.
  assert (sort_by options ≠ "date") as Hdate by discriminate.
  assert (list_files (_sort_items id id) shared_drive "top" options (fresh_world 0)
            = Some (Return out, shared_world)) as Hlist by (vm_compute; reflexivity).
  split; [exact Hlist|].
  exact (proj1 (proj2 (proj2
    (list_files_returns_the_listing id id shared_drive "top" options
       (fresh_world 0) shared_world out Hdate Hlist))) eq_refl).
Defined.

(** * The command line *)




